(** * Now Playing: search, selection, import and picker of the game catalog

    A shallow embedding of [NowPlaying.py].  The program keeps one SQLite
    table [games(id, name TEXT NOT NULL UNIQUE)] and one global dictionary
    [checkbox_states]; every handler below takes the state it reads and
    returns the state it leaves.

    Text.  A Python [str] is modelled as a [string] over Rocq's 8-bit
    [ascii], read as the code points U+0000..U+00FF.  The character classes
    ([str.lower], [str.strip], [str.splitlines], the regex class [\w]) are
    the ones CPython uses on these code points.  Every statement below
    about the letters of a title or of a term is a statement about text of
    these code points: beyond U+00FF [str.lower] is no longer a map on
    single characters and [re.IGNORECASE] identifies more letters than
    [str.lower] does.

    Libraries.  [re] is modelled on the patterns that [search_games]
    builds, [csv.reader] by its automaton for the default dialect,
    [random.choice] over an abstract generator, and the table by the list
    of its names with the [UNIQUE] check on insertion.  The widgets, the
    notifications and the timers are left out; what a handler shows is
    returned as a value. *)

From Stdlib Require Import Ascii NArith.
From stdpp Require Import gmap strings list sorting pretty.

Local Open Scope N_scope.

(** ** Characters *)

Module Char.

Definition code (c : ascii) : N := N_of_ascii c.

Definition between (lo hi : N) (c : ascii) : bool :=
  (lo <=? code c) && (code c <=? hi).

(** [str.lower] on one code point: A-Z, and the Latin-1 capitals
    U+00C0..U+00DE without the multiplication sign U+00D7. *)
Definition is_upper (c : ascii) : bool :=
  between 65 90 c || (between 192 222 c && negb (code c =? 215)).

Definition lower (c : ascii) : ascii :=
  if is_upper c then ascii_of_N (code c + 32) else c.

(** [str.isspace], the characters removed by [str.strip()]. *)
Definition is_space (c : ascii) : bool :=
  between 9 13 c || between 28 32 c || (code c =? 133) || (code c =? 160).

(** Line boundaries of [str.splitlines]. *)
Definition is_linebreak (c : ascii) : bool :=
  between 10 13 c || between 28 30 c || (code c =? 133).

(** [str.isalnum]: letters, digits and the other numeric characters. *)
Definition is_alnum (c : ascii) : bool :=
  between 48 57 c || between 65 90 c || between 97 122 c
  || (code c =? 170) || between 178 179 c || (code c =? 181)
  || between 185 186 c || between 188 190 c
  || between 192 214 c || between 216 246 c || between 248 255 c.

(** The regex class [\w] on [str] patterns: alphanumeric or underscore. *)
Definition is_word (c : ascii) : bool :=
  is_alnum c || (code c =? 95).

(** ASCII letters and digits: after a backslash these start a regex
    escape sequence, every other character is taken literally. *)
Definition is_ascii_alnum (c : ascii) : bool :=
  between 48 57 c || between 65 90 c || between 97 122 c.

End Char.

(** ** Strings *)

Module Str.

Fixpoint lower (s : string) : string :=
  match s with
  | EmptyString => EmptyString
  | String c s' => String (Char.lower c) (lower s')
  end.

Fixpoint lstrip (s : string) : string :=
  match s with
  | EmptyString => EmptyString
  | String c s' => if Char.is_space c then lstrip s' else s
  end.

Definition rstrip (s : string) : string :=
  String.rev (lstrip (String.rev s)).

Definition strip (s : string) : string := rstrip (lstrip s).

(** [str.splitlines()]: [cur] is the current line, reversed. *)
Fixpoint splitlines_go (cur : string) (s : string) : list string :=
  match s with
  | EmptyString =>
      match cur with
      | EmptyString => []
      | _ => [String.rev cur]
      end
  | String c s' =>
      if Char.is_linebreak c then
        String.rev cur ::
          match s' with
          | String c' s'' =>
              if (Char.code c =? 13) && (Char.code c' =? 10)
              then splitlines_go EmptyString s''
              else splitlines_go EmptyString s'
          | EmptyString => splitlines_go EmptyString s'
          end
      else splitlines_go (String c cur) s'
  end.

Definition splitlines (s : string) : list string :=
  splitlines_go EmptyString s.

End Str.

(** ** The [re] module, as far as [search_games] uses it *)

Module Re.

(** [re.escape]: a backslash in front of each special character. *)
Definition special_chars : list ascii :=
  String.list_ascii_of_string "()[]{}?*+-|^$\.&~# "
    ++ [ascii_of_N 9; ascii_of_N 10; ascii_of_N 13; ascii_of_N 11;
        ascii_of_N 12].

Definition is_special (c : ascii) : bool :=
  bool_decide (c ∈ special_chars).

Fixpoint escape (s : string) : string :=
  match s with
  | EmptyString => EmptyString
  | String c s' =>
      if is_special c then String "\" (String c (escape s'))
      else String c (escape s')
  end.

(** Compiled patterns: the word-boundary assertion and literals. *)
Inductive op : Type :=
| AT_BOUNDARY
| LITERAL (c : ascii).

Definition pattern : Type := list op.

Definition metachars : list ascii :=
  String.list_ascii_of_string ".^$*+?{}[]|()".

(** [re.compile] on the fragment of the syntax that holds [\b], escaped
    characters and plain characters.  [None] stands for every pattern
    outside this fragment (operators, classes, groups, bad escapes). *)
Fixpoint compile (s : string) : option pattern :=
  match s with
  | EmptyString => Some []
  | String c s' =>
      if (Char.code c =? 92) then
        match s' with
        | EmptyString => None
        | String e s'' =>
            if (Char.code e =? 98) then cons AT_BOUNDARY <$> compile s''
            else if Char.is_ascii_alnum e then None
            else cons (LITERAL e) <$> compile s''
        end
      else if bool_decide (c ∈ metachars) then None
      else cons (LITERAL c) <$> compile s'
  end.

Definition word_before (prev : option ascii) : bool :=
  match prev with
  | Some c => Char.is_word c
  | None => false
  end.

Definition word_here (s : string) : bool :=
  match s with
  | String c _ => Char.is_word c
  | EmptyString => false
  end.

(** [\b]: exactly one of the two neighbours is a word character; the
    outside of the text counts as a non-word character. *)
Definition at_boundary (prev : option ascii) (s : string) : bool :=
  xorb (word_before prev) (word_here s).

(** A literal under [re.IGNORECASE] compares the lowercase forms. *)
Definition literal_eq (ignorecase : bool) (c t : ascii) : bool :=
  if ignorecase then bool_decide (Char.lower c = Char.lower t)
  else bool_decide (c = t).

(** Match of pattern [p] at the current position: [prev] is the
    character just before it, [s] the text from it on. *)
Fixpoint match_at (ic : bool) (p : pattern) (prev : option ascii)
    (s : string) : bool :=
  match p with
  | [] => true
  | AT_BOUNDARY :: p' => at_boundary prev s && match_at ic p' prev s
  | LITERAL c :: p' =>
      match s with
      | String t s' => literal_eq ic c t && match_at ic p' (Some t) s'
      | EmptyString => false
      end
  end.

(** [pattern.search]: try every position from left to right. *)
Fixpoint search_from (ic : bool) (p : pattern) (prev : option ascii)
    (s : string) : bool :=
  match_at ic p prev s ||
  match s with
  | String t s' => search_from ic p (Some t) s'
  | EmptyString => false
  end.

Definition search (ic : bool) (p : pattern) (s : string) : bool :=
  search_from ic p None s.

End Re.

Local Close Scope N_scope.

(** ** The [games] table *)

(** The [name] column in rowid order; the [id] column is never read.  The
    column is [UNIQUE] under SQLite's default BINARY collation: two names
    clash exactly when they are the same string. *)
Definition table : Type := list string.

Inductive exec_result : Type :=
| Executed (t : table)
| IntegrityError.

(** [INSERT INTO games (name) VALUES (?)] *)
Definition insert_game (name : string) (t : table) : exec_result :=
  if decide (name ∈ t) then IntegrityError else Executed (t ++ [name]).

(** [DELETE FROM games WHERE name = ?] *)
Definition delete_game (name : string) (t : table) : table :=
  filter (λ n, n ≠ name) t.

(** [SELECT name FROM games ORDER BY name]: BINARY collation orders the
    names by code points, capitals before small letters. *)
Definition get_all_games (t : table) : list string :=
  merge_sort String.le t.

(** ** search_games *)

(** The two comprehensions over [all_titles]. *)
Definition exact_matches (all_titles : list string) (term_lower : string)
    : list string :=
  filter (λ title, Str.lower title = term_lower) all_titles.

Definition partial_matches (all_titles : list string)
    (word_start_pattern : Re.pattern) (term_lower : string) : list string :=
  filter (λ title,
            Re.search true word_start_pattern (Str.lower title) = true
            ∧ Str.lower title ≠ term_lower)
         all_titles.

(** The pattern text [rf'\b{re.escape(term_lower)}']. *)
Definition word_start_source (term_lower : string) : string :=
  String "\" (String "b" (Re.escape term_lower)).

(** The branch [None] stands for [re.error]; it is never taken, see
    [compile_word_start] below. *)
Definition search_games (t : table) (term : string) : list string :=
  let term := Str.strip term in
  if decide (term = EmptyString) then []
  else
    let term_lower := Str.lower term in
    let all_titles := get_all_games t in
    match Re.compile (word_start_source term_lower) with
    | Some word_start_pattern =>
        exact_matches all_titles term_lower
          ++ partial_matches all_titles word_start_pattern term_lower
    | None => []
    end.

(** ** The list of all games and the check boxes *)

(** [list.sort(key=...)]: a stable sort, here by insertion from the right. *)
Section stable_sort.
Context {A : Type} (key : A → string).

Fixpoint insert_by_key (x : A) (l : list A) : list A :=
  match l with
  | [] => [x]
  | y :: l' =>
      if decide (String.le (key x) (key y)) then x :: y :: l'
      else y :: insert_by_key x l'
  end.

Definition sort_by_key (l : list A) : list A :=
  foldr insert_by_key [] l.
End stable_sort.

(** The state of the program: the table and the global dictionary
    [checkbox_states]. *)
Record app : Type := App {
  db : table;
  checkbox_states : gmap string bool
}.

Definition create_checkbox (game_name : string) (cs : gmap string bool)
    : gmap string bool :=
  match cs !! game_name with
  | Some _ => cs
  | None => <[game_name := false]> cs
  end.

(** The order in which [refresh_all_games] shows the table. *)
Definition displayed_games (t : table) : list string :=
  sort_by_key Str.lower (get_all_games t).

Definition refresh_all_games (a : app) : app :=
  App (db a)
      (foldl (λ cs game, create_checkbox game cs) (checkbox_states a)
             (displayed_games (db a))).

Definition set_all (value : bool) (games : list string)
    (cs : gmap string bool) : gmap string bool :=
  foldl (λ cs game, <[game := value]> cs) cs games.

Definition select_all_games (a : app) : app :=
  refresh_all_games
    (App (db a) (set_all true (get_all_games (db a)) (checkbox_states a))).

Definition clear_selected_games (a : app) : app :=
  refresh_all_games
    (App (db a) (set_all false (get_all_games (db a)) (checkbox_states a))).

(** [[game for game, checked in checkbox_states.items() if checked]]; the
    order of the items plays no role in what follows. *)
Definition selected_games (cs : gmap string bool) : list string :=
  (filter (λ item, item.2 = true) (map_to_list cs)).*1.

Inductive confirmation : Type :=
| NothingSelected
| Dialog (selected : list string).

Definition confirm_bulk_deletion (a : app) : confirmation :=
  match selected_games (checkbox_states a) with
  | [] => NothingSelected
  | selected => Dialog selected
  end.

(** The handler of the dialog's Yes button, closed over [selected]. *)
Definition do_delete (selected : list string) (a : app) : app :=
  refresh_all_games
    (foldl (λ a game,
              App (delete_game game (db a))
                  (delete game (checkbox_states a)))
           a selected).

(** ** csv.reader with the default dialect

    Delimiter [,], quote character U+0022, [doublequote] on, not strict, no
    escape character.  The automaton is the one of CPython's [_csv] module,
    with its limit on the size of a field: a character added to a field
    that already holds [field_limit] characters raises [csv.Error]. *)

Module Csv.

Inductive parser_state : Type :=
| START_RECORD
| START_FIELD
| IN_FIELD
| IN_QUOTED_FIELD
| QUOTE_IN_QUOTED_FIELD
| EAT_CRNL.

Global Instance parser_state_eq_dec : EqDecision parser_state.
Proof. solve_decision. Defined.

(** [field] holds the characters of the current field, last one first;
    [fields] the fields saved so far, last one first. *)
Record reader : Type := Reader {
  state : parser_state;
  field : string;
  fields : list string
}.

Inductive input : Type :=
| Chr (c : ascii)
| EOL.

Definition delimiter : ascii := ","%char.
Definition quotechar : ascii := "034"%char.

Definition is_newline (c : ascii) : bool :=
  bool_decide (c = "010"%char) || bool_decide (c = "013"%char).

Definition parse_reset : reader := Reader START_RECORD EmptyString [].

(** [csv.field_size_limit()] *)
Definition field_limit : N := 131072.

Definition field_len (r : reader) : N := N.of_nat (String.length (field r)).

(** [None] is [csv.Error]: the field is larger than the limit. *)
Definition parse_add_char (c : ascii) (r : reader) : option reader :=
  if (field_len r <? field_limit)%N
  then Some (Reader (state r) (String c (field r)) (fields r))
  else None.

Definition parse_save_field (r : reader) : reader :=
  Reader (state r) EmptyString (String.rev (field r) :: fields r).

Definition set_state (s : parser_state) (r : reader) : reader :=
  Reader s (field r) (fields r).

Definition start_field (r : reader) (i : input) : option reader :=
  match i with
  | EOL => Some (set_state START_RECORD (parse_save_field r))
  | Chr c =>
      if is_newline c then Some (set_state EAT_CRNL (parse_save_field r))
      else if bool_decide (c = quotechar) then
        Some (set_state IN_QUOTED_FIELD r)
      else if bool_decide (c = delimiter) then
        Some (set_state START_FIELD (parse_save_field r))
      else set_state IN_FIELD <$> parse_add_char c r
  end.

(** One step of the automaton; [None] is [csv.Error]: a field larger than
    the limit, or a character after a newline inside a line. *)
Definition parse_process_char (r : reader) (i : input) : option reader :=
  match state r with
  | START_RECORD =>
      match i with
      | EOL => Some r
      | Chr c =>
          if is_newline c then Some (set_state EAT_CRNL r)
          else start_field r i
      end
  | START_FIELD => start_field r i
  | IN_FIELD =>
      match i with
      | EOL => Some (set_state START_RECORD (parse_save_field r))
      | Chr c =>
          if is_newline c then Some (set_state EAT_CRNL (parse_save_field r))
          else if bool_decide (c = delimiter) then
            Some (set_state START_FIELD (parse_save_field r))
          else parse_add_char c r
      end
  | IN_QUOTED_FIELD =>
      match i with
      | EOL => Some r
      | Chr c =>
          if bool_decide (c = quotechar) then
            Some (set_state QUOTE_IN_QUOTED_FIELD r)
          else parse_add_char c r
      end
  | QUOTE_IN_QUOTED_FIELD =>
      match i with
      | EOL => Some (set_state START_RECORD (parse_save_field r))
      | Chr c =>
          if bool_decide (c = quotechar) then
            set_state IN_QUOTED_FIELD <$> parse_add_char c r
          else if bool_decide (c = delimiter) then
            Some (set_state START_FIELD (parse_save_field r))
          else if is_newline c then
            Some (set_state EAT_CRNL (parse_save_field r))
          else set_state IN_FIELD <$> parse_add_char c r
      end
  | EAT_CRNL =>
      match i with
      | EOL => Some (set_state START_RECORD r)
      | Chr c => if is_newline c then Some r else None
      end
  end.

(** The characters of one line, then the end-of-line mark. *)
Fixpoint parse_line (r : reader) (line : string) : option reader :=
  match line with
  | EmptyString => parse_process_char r EOL
  | String c line' =>
      match parse_process_char r (Chr c) with
      | Some r' => parse_line r' line'
      | None => None
      end
  end.

Definition record_of (r : reader) : list string := reverse (fields r).

(** The rows the reader yields, and whether it then raised [csv.Error].
    A record ends when a line leaves the automaton in [START_RECORD]; a
    quoted field left open takes the next line in. *)
Fixpoint read (r : reader) (lines : list string)
    : list (list string) * bool :=
  match lines with
  | [] =>
      if bool_decide (field r ≠ EmptyString
                      ∨ state r = IN_QUOTED_FIELD)
      then ([record_of (parse_save_field r)], false)
      else ([], false)
  | line :: lines' =>
      match parse_line r line with
      | None => ([], true)
      | Some r' =>
          if decide (state r' = START_RECORD) then
            let '(rows, raised) := read parse_reset lines' in
            (record_of r' :: rows, raised)
          else read r' lines'
      end
  end.

Definition reader_rows (lines : list string) : list (list string) * bool :=
  read parse_reset lines.

End Csv.

(** ** handle_csv_upload *)

Record import_state : Type := Import {
  import_db : table;
  imported : nat;
  skipped : nat
}.

(** Lines 93 to 99: what the loop does with the first field of a row. *)
Definition import_game (field0 : string) (st : import_state) : import_state :=
  let game := Str.strip field0 in
  if decide (game = EmptyString) then st
  else
    match insert_game game (import_db st) with
    | Executed t' => Import t' (imported st + 1) (skipped st)
    | IntegrityError => Import (import_db st) (imported st) (skipped st + 1)
    end.

(** The body of [for row in reader]. *)
Definition import_row (st : import_state) (row : list string) : import_state :=
  match row with
  | [] => st
  | field0 :: _ => import_game field0 st
  end.

Definition import_rows (rows : list (list string)) (st : import_state)
    : import_state :=
  foldl import_row st rows.

Inductive upload_outcome : Type :=
| Notified (imported skipped : nat)
| CsvError.

Definition handle_csv_upload (content : string) (a : app)
    : app * upload_outcome :=
  let file := Str.splitlines content in
  let '(rows, raised) := Csv.reader_rows file in
  let st := import_rows rows (Import (db a) 0 0) in
  if raised then (App (import_db st) (checkbox_states a), CsvError)
  else
    (refresh_all_games (App (import_db st) (checkbox_states a)),
     Notified (imported st) (skipped st)).

(** ** add_game *)

Inductive add_outcome : Type :=
| EnterTitle
| Added (game : string)
| AlreadyInList (game : string).

Definition add_game (game : string) (a : app) : app * add_outcome :=
  let game := Str.strip game in
  if decide (game = EmptyString) then (a, EnterTitle)
  else
    match insert_game game (db a) with
    | Executed t' =>
        (refresh_all_games (App t' (checkbox_states a)), Added game)
    | IntegrityError => (a, AlreadyInList game)
    end.

(** ** pick_random *)

Inductive roll : Type :=
| Chosen (choice : string)
| NoGames
| IndexError.

Section pick_random.
(** The generator behind [random.choice]: [randbelow n] draws an index
    below [n] and advances the generator. *)
Context {rng : Type} (randbelow : nat → rng → nat * rng).

Definition random_choice (seq : list string) (g : rng)
    : option string * rng :=
  let '(i, g') := randbelow (length seq) g in (seq !! i, g').

Definition pick_random (t : table) (g : rng) : roll * rng :=
  let games := get_all_games t in
  match games with
  | [] => (NoGames, g)
  | _ =>
      match random_choice games g with
      | (Some choice, g') => (Chosen choice, g')
      | (None, g') => (IndexError, g')
      end
  end.
End pick_random.

(** * Properties *)

(** ** Text *)

Lemma app_cons (c : ascii) (s1 s2 : string) :
  String c s1 +:+ s2 = String c (s1 +:+ s2).
Proof. reflexivity. Qed.

Lemma app_empty_l (s : string) : EmptyString +:+ s = s.
Proof. reflexivity. Qed.

(** ** The table *)

Lemma get_all_games_Permutation (t : table) : get_all_games t ≡ₚ t.
Proof. apply merge_sort_Permutation. Qed.

Lemma elem_of_get_all_games (t : table) (name : string) :
  name ∈ get_all_games t ↔ name ∈ t.
Proof. by rewrite get_all_games_Permutation. Qed.

Lemma NoDup_get_all_games (t : table) : NoDup t → NoDup (get_all_games t).
Proof. by rewrite get_all_games_Permutation. Qed.

Lemma get_all_games_sorted (t : table) :
  StronglySorted String.le (get_all_games t).
Proof. apply (StronglySorted_merge_sort _). Qed.

Lemma insert_game_fresh (name : string) (t : table) :
  name ∉ t → insert_game name t = Executed (t ++ [name]).
Proof. intros H. unfold insert_game. by rewrite decide_False. Qed.

Lemma insert_game_clash (name : string) (t : table) :
  name ∈ t → insert_game name t = IntegrityError.
Proof. intros H. unfold insert_game. by rewrite decide_True. Qed.

(** The [UNIQUE] constraint is an invariant of the table. *)
Lemma insert_game_NoDup (name : string) (t t' : table) :
  NoDup t → insert_game name t = Executed t' → NoDup t'.
Proof.
  unfold insert_game. intros Hnd. case_decide as Hin; [done|].
  intros [= <-]. apply NoDup_app. split_and!; [done| |apply NoDup_singleton].
  intros x Hx ->%list_elem_of_singleton. done.
Qed.

Lemma delete_game_NoDup (name : string) (t : table) :
  NoDup t → NoDup (delete_game name t).
Proof. apply NoDup_filter. Qed.

Lemma elem_of_delete_game (name x : string) (t : table) :
  x ∈ delete_game name t ↔ x ≠ name ∧ x ∈ t.
Proof. unfold delete_game. by rewrite list_elem_of_filter. Qed.

(** ** The two groups of a search *)

Definition exact_group (t : table) (term : string) : list string :=
  exact_matches (get_all_games t) (Str.lower (Str.strip term)).

Definition partial_group (t : table) (term : string) : list string :=
  match Re.compile (word_start_source (Str.lower (Str.strip term))) with
  | Some word_start_pattern =>
      partial_matches (get_all_games t) word_start_pattern
        (Str.lower (Str.strip term))
  | None => []
  end.

Ltac ascii_cases c :=
  destruct c as [[] [] [] [] [] [] [] []]; vm_compute; try done.

Lemma special_not_escape_code (c : ascii) :
  Re.is_special c = true →
  (Char.code c =? 98)%N = false ∧ Char.is_ascii_alnum c = false.
Proof. ascii_cases c; auto. Qed.

Lemma plain_not_operator (c : ascii) :
  Re.is_special c = false →
  (Char.code c =? 92)%N = false ∧ bool_decide (c ∈ Re.metachars) = false.
Proof. ascii_cases c; auto. Qed.

Definition literals (s : string) : Re.pattern :=
  Re.LITERAL <$> String.list_ascii_of_string s.

(** Escaping works: whatever the characters of [s], the escaped text
    compiles to the literals of [s], one per character. *)
Lemma compile_escape (s : string) :
  Re.compile (Re.escape s) = Some (literals s).
Proof.
  induction s as [|c s IH]; [done|].
  unfold literals. cbn [Re.escape String.list_ascii_of_string fmap list_fmap].
  destruct (Re.is_special c) eqn:Hc.
  - destruct (special_not_escape_code c Hc) as [Hb Hal].
    cbn [Re.compile]. change (Char.code "\" =? 92)%N with true.
    cbv iota. rewrite Hb, Hal, IH. done.
  - destruct (plain_not_operator c Hc) as [Hb Hm].
    cbn [Re.compile]. rewrite Hb, Hm, IH. done.
Qed.

Lemma compile_word_start (s : string) :
  Re.compile (word_start_source s) = Some (Re.AT_BOUNDARY :: literals s).
Proof.
  unfold word_start_source. cbn [Re.compile].
  change (Char.code "\" =? 92)%N with true.
  change (Char.code "b" =? 98)%N with true.
  cbv iota. by rewrite compile_escape.
Qed.

Lemma partial_group_eq (t : table) (term : string) :
  partial_group t term
  = partial_matches (get_all_games t)
      (Re.AT_BOUNDARY :: literals (Str.lower (Str.strip term)))
      (Str.lower (Str.strip term)).
Proof. unfold partial_group. by rewrite compile_word_start. Qed.

(** A blank term finds nothing; otherwise the result is the exact group
    followed by the word-start group. *)
Lemma search_games_groups (t : table) (term : string) :
  search_games t term
  = if decide (Str.strip term = EmptyString) then []
    else exact_group t term ++ partial_group t term.
Proof.
  unfold search_games, exact_group, partial_group.
  case_decide; [done|]. by rewrite compile_word_start.
Qed.

Example search_doom :
  search_games ["Quake"; "Doom Eternal"; "Doom"] " doom "
  = ["Doom"; "Doom Eternal"].
Proof. vm_compute. reflexivity. Qed.

Lemma elem_of_exact_group (t : table) (term title : string) :
  title ∈ exact_group t term
  ↔ Str.lower title = Str.lower (Str.strip term) ∧ title ∈ t.
Proof.
  unfold exact_group, exact_matches.
  by rewrite list_elem_of_filter, elem_of_get_all_games.
Qed.

Lemma exact_group_sublist (t : table) (term : string) :
  exact_group t term `sublist_of` get_all_games t.
Proof. apply sublist_filter. Qed.

Lemma partial_group_sublist (t : table) (term : string) :
  partial_group t term `sublist_of` get_all_games t.
Proof. rewrite partial_group_eq. apply sublist_filter. Qed.

Lemma StronglySorted_filter {A} (R : relation A) (P : A → Prop)
    `{∀ x, Decision (P x)} (l : list A) :
  StronglySorted R l → StronglySorted R (filter P l).
Proof.
  induction 1 as [|x l Hl IH Hx]; [constructor|].
  rewrite filter_cons. case_decide; [|done].
  constructor; [done|]. rewrite Forall_forall in Hx |- *.
  intros y [_ Hy]%list_elem_of_filter. auto.
Qed.

(** Both groups keep the order of [get_all_games], which is the order of
    the code points. *)
Lemma exact_group_sorted (t : table) (term : string) :
  StronglySorted String.le (exact_group t term).
Proof. apply StronglySorted_filter, get_all_games_sorted. Qed.

Lemma partial_group_sorted (t : table) (term : string) :
  StronglySorted String.le (partial_group t term).
Proof.
  rewrite partial_group_eq. apply StronglySorted_filter, get_all_games_sorted.
Qed.

(** The case-insensitive order, the one of [refresh_all_games]. *)
Definition ci_le (a b : string) : Prop :=
  String.le (Str.lower a) (Str.lower b).

Global Instance ci_le_dec : RelDecision ci_le.
Proof. intros a b. unfold ci_le. apply _. Defined.

Lemma insert_by_key_sorted {A} (key : A → string) (x : A) (l : list A) :
  Sorted (λ a b, String.le (key a) (key b)) l →
  Sorted (λ a b, String.le (key a) (key b)) (insert_by_key key x l).
Proof.
  induction 1 as [|y l Hl IH Hy]; cbn [insert_by_key].
  - repeat constructor.
  - case_decide as Hxy.
    + repeat constructor; done.
    + assert (String.le (key y) (key x)) as Hyx.
      { by destruct (total String.le (key x) (key y)). }
      constructor; [done|].
      destruct Hy as [|z l' Hz]; cbn [insert_by_key].
      * by constructor.
      * case_decide; by constructor.
Qed.

Lemma displayed_games_sorted (t : table) : Sorted ci_le (displayed_games t).
Proof.
  unfold displayed_games, sort_by_key.
  induction (get_all_games t) as [|x l IH]; [constructor|].
  cbn [foldr]. by apply (insert_by_key_sorted Str.lower).
Qed.

Lemma elem_of_insert_by_key {A} (key : A → string) (x y : A) (l : list A) :
  y ∈ insert_by_key key x l ↔ y = x ∨ y ∈ l.
Proof.
  induction l as [|z l IH]; cbn [insert_by_key].
  - rewrite list_elem_of_singleton, elem_of_nil. tauto.
  - case_decide; rewrite !elem_of_cons; [tauto|]. rewrite IH. tauto.
Qed.

Lemma elem_of_displayed_games (t : table) (name : string) :
  name ∈ displayed_games t ↔ name ∈ t.
Proof.
  unfold displayed_games, sort_by_key.
  rewrite <-elem_of_get_all_games.
  induction (get_all_games t) as [|x l IH]; [done|].
  cbn [foldr]. by rewrite elem_of_insert_by_key, elem_of_cons, IH.
Qed.

(** ** C8: search results are names of the catalog, without repetition *)

(** C8.  For every table that satisfies its [UNIQUE] constraint and every
    search term, the result of [search_games] holds no name twice and
    holds only names of the table; on the empty table the result is empty
    whatever the term. *)
Theorem search_games_members_nodup (t : table) (term : string) :
  NoDup t →
  NoDup (search_games t term)
  ∧ (∀ name, name ∈ search_games t term → name ∈ t)
  ∧ search_games [] term = [].
Proof.
  intros Hnd. rewrite !search_games_groups. split_and!.
  - case_decide; [constructor|]. apply NoDup_app. split_and!.
    + eapply sublist_NoDup; [|apply exact_group_sublist].
      by apply NoDup_get_all_games.
    + intros x [Hx _]%elem_of_exact_group. rewrite partial_group_eq.
      unfold partial_matches. rewrite list_elem_of_filter. tauto.
    + eapply sublist_NoDup; [|apply partial_group_sublist].
      by apply NoDup_get_all_games.
  - intros name. case_decide; [by rewrite elem_of_nil|].
    rewrite elem_of_app. intros [Hx|Hx]; apply elem_of_get_all_games.
    + eapply elem_of_sublist; [done|apply exact_group_sublist].
    + eapply elem_of_sublist; [done|apply partial_group_sublist].
  - case_decide; [done|]. rewrite partial_group_eq. reflexivity.
Qed.

Lemma search_games_members_nodup_witness :
  NoDup (search_games ["Quake"; "Doom Eternal"; "Doom"] "doom")
  ∧ (∀ name, name ∈ search_games ["Quake"; "Doom Eternal"; "Doom"] "doom" →
             name ∈ ["Quake"; "Doom Eternal"; "Doom"])
  ∧ search_games [] "doom" = [].
Proof.
  apply (search_games_members_nodup ["Quake"; "Doom Eternal"; "Doom"] "doom").
  apply (bool_decide_unpack _). vm_compute. exact I.
Defined.

(** ** C4: how many exact matches *)

(** C4, as stated, fails: the table may hold two names that differ only
    in case, and both are exact matches of the same term. *)
Lemma exact_group_two_spellings :
  ¬ (NoDup ["Doom"; "DOOM"] → length (exact_group ["Doom"; "DOOM"] "doom") ≤ 1).
Proof.
  intros H.
  assert (NoDup ["Doom"; "DOOM"]) as Hnd.
  { apply (bool_decide_unpack _). vm_compute. exact I. }
  specialize (H Hnd). vm_compute in H. lia.
Qed.

Lemma NoDup_constant_length {A} (l : list A) (a : A) :
  NoDup l → (∀ x, x ∈ l → x = a) → length l ≤ 1.
Proof.
  intros Hnd Hall. destruct l as [|x [|y l]]; cbn; [lia..|].
  exfalso. apply NoDup_cons in Hnd as [Hx _]. apply Hx.
  rewrite (Hall x), (Hall y); rewrite ?elem_of_cons; auto.
Qed.

(** C4, amended.  For every table whose names are pairwise distinct after
    lowercasing and every term, the exact-match group holds at most one
    entry. *)
Theorem exact_group_at_most_one (t : table) (term : string) :
  NoDup (Str.lower <$> t) →
  length (exact_group t term) ≤ 1.
Proof.
  intros Hnd. rewrite <-(length_fmap Str.lower).
  apply (NoDup_constant_length _ (Str.lower (Str.strip term))).
  - eapply sublist_NoDup.
    + by rewrite <-(get_all_games_Permutation t) in Hnd.
    + apply fmap_sublist, exact_group_sublist.
  - intros x (title & -> & Htitle)%list_elem_of_fmap.
    by apply elem_of_exact_group in Htitle as [? _].
Qed.

Lemma exact_group_at_most_one_witness :
  length (exact_group ["Quake"; "Doom Eternal"; "Doom"] " DOOM ") ≤ 1.
Proof.
  apply (exact_group_at_most_one ["Quake"; "Doom Eternal"; "Doom"] " DOOM ").
  apply (bool_decide_unpack _). vm_compute. exact I.
Defined.

(** ** C2: the order inside the groups *)

(** C2, evaluated.  On a table with the names "zelda One" and "Zelda Two"
    the search for "zelda" lists "Zelda Two" first: the word-start group
    comes in the order of the code points, which is not the ascending
    case-insensitive order in which [refresh_all_games] shows the same
    two names. *)
Theorem search_games_order_case_sensitive :
  search_games ["zelda One"; "Zelda Two"] "zelda" = ["Zelda Two"; "zelda One"]
  ∧ exact_group ["zelda One"; "Zelda Two"] "zelda" = []
  ∧ partial_group ["zelda One"; "Zelda Two"] "zelda"
    = ["Zelda Two"; "zelda One"]
  ∧ ¬ Sorted ci_le (partial_group ["zelda One"; "Zelda Two"] "zelda")
  ∧ displayed_games ["zelda One"; "Zelda Two"] = ["zelda One"; "Zelda Two"].
Proof.
  split_and!; try (vm_compute; reflexivity).
  intros H. apply (bool_decide_pack _) in H. vm_compute in H. exact H.
Qed.

(** ** The selection state *)

Ltac decide_cases :=
  repeat match goal with
         | |- context [decide ?P] => destruct (decide P)
         end;
  try done;
  try (exfalso; rewrite ?elem_of_cons in *; tauto).

Lemma elem_of_selected_games (cs : gmap string bool) (name : string) :
  name ∈ selected_games cs ↔ cs !! name = Some true.
Proof.
  unfold selected_games. rewrite list_elem_of_fmap. split.
  - intros ([k b] & -> & [Hb Hkb]%list_elem_of_filter).
    apply elem_of_map_to_list in Hkb. cbn in *. by subst.
  - intros Hname. exists (name, true). split; [done|].
    apply list_elem_of_filter. split; [done|]. by apply elem_of_map_to_list.
Qed.

Lemma selected_games_nil (cs : gmap string bool) :
  selected_games cs = [] ↔ ∀ name, cs !! name ≠ Some true.
Proof.
  split.
  - intros Hnil name Hname%elem_of_selected_games.
    rewrite Hnil in Hname. by apply elem_of_nil in Hname.
  - intros Hall. destruct (selected_games cs) as [|name l] eqn:Hsel; [done|].
    destruct (Hall name). apply elem_of_selected_games. rewrite Hsel. left.
Qed.

Lemma set_all_lookup (value : bool) (games : list string)
    (cs : gmap string bool) (name : string) :
  set_all value games cs !! name
  = if decide (name ∈ games) then Some value else cs !! name.
Proof.
  unfold set_all. revert cs.
  induction games as [|game games IH]; intros cs; cbn [foldl].
  - rewrite decide_False; [done|]. apply not_elem_of_nil.
  - rewrite IH. destruct (decide (name = game)) as [->|Hne].
    + rewrite (decide_True (P := game ∈ game :: games)) by left.
      case_decide; [done|]. by rewrite lookup_insert_eq.
    + rewrite lookup_insert_ne by done. decide_cases.
Qed.

Lemma create_checkbox_lookup (game name : string) (cs : gmap string bool) :
  create_checkbox game cs !! name
  = match cs !! name with
    | Some b => Some b
    | None => if decide (name = game) then Some false else None
    end.
Proof.
  unfold create_checkbox. destruct (decide (name = game)) as [->|Hne].
  - destruct (cs !! game) eqn:Hg; [by rewrite Hg|].
    by rewrite lookup_insert_eq.
  - destruct (cs !! game) eqn:Hg; [by destruct (cs !! name)|].
    rewrite lookup_insert_ne by done. by destruct (cs !! name).
Qed.

Lemma create_checkboxes_lookup (games : list string) (cs : gmap string bool)
    (name : string) :
  foldl (λ cs game, create_checkbox game cs) cs games !! name
  = match cs !! name with
    | Some b => Some b
    | None => if decide (name ∈ games) then Some false else None
    end.
Proof.
  revert cs. induction games as [|game games IH]; intros cs; cbn [foldl].
  - destruct (cs !! name); [done|]. rewrite decide_False; [done|].
    apply not_elem_of_nil.
  - rewrite IH, create_checkbox_lookup. destruct (cs !! name); [done|].
    destruct (decide (name = game)) as [->|Hne].
    + by rewrite decide_True by left.
    + decide_cases.
Qed.

Lemma refresh_all_games_db (a : app) : db (refresh_all_games a) = db a.
Proof. reflexivity. Qed.

(** Refreshing the list gives every name of the table that has no check
    box yet an unchecked one, and changes no other entry. *)
Lemma refresh_all_games_lookup (a : app) (name : string) :
  checkbox_states (refresh_all_games a) !! name
  = match checkbox_states a !! name with
    | Some b => Some b
    | None => if decide (name ∈ db a) then Some false else None
    end.
Proof.
  unfold refresh_all_games. cbn [checkbox_states].
  rewrite create_checkboxes_lookup. destruct (checkbox_states a !! name); [done|].
  decide_cases; exfalso; rewrite elem_of_displayed_games in *; done.
Qed.

Lemma select_all_games_lookup (a : app) (name : string) :
  checkbox_states (select_all_games a) !! name
  = if decide (name ∈ db a) then Some true else checkbox_states a !! name.
Proof.
  unfold select_all_games. rewrite refresh_all_games_lookup.
  cbn [checkbox_states db]. rewrite set_all_lookup.
  decide_cases; try (exfalso; rewrite elem_of_get_all_games in *; done).
  by destruct (checkbox_states a !! name).
Qed.

Lemma clear_selected_games_lookup (a : app) (name : string) :
  checkbox_states (clear_selected_games a) !! name
  = if decide (name ∈ db a) then Some false else checkbox_states a !! name.
Proof.
  unfold clear_selected_games. rewrite refresh_all_games_lookup.
  cbn [checkbox_states db]. rewrite set_all_lookup.
  decide_cases; try (exfalso; rewrite elem_of_get_all_games in *; done).
  by destruct (checkbox_states a !! name).
Qed.

Lemma select_all_games_db (a : app) : db (select_all_games a) = db a.
Proof. reflexivity. Qed.

(** ** C3: Select All, then CLEAR *)

(** C3, as stated, fails: a name that is checked but not in the table is
    touched by neither button and stays checked. *)
Lemma select_clear_keeps_stale :
  selected_games
    (checkbox_states
       (clear_selected_games (select_all_games (App [] {["Halo" := true]}))))
  ≠ [].
Proof. vm_compute. discriminate. Qed.

(** C3, amended.  For every state, after Select All and then CLEAR the
    checked names are exactly the names that were checked before and are
    not in the table; in particular nothing is checked when every name
    that was checked before is in the table. *)
Theorem select_then_clear (a : app) :
  (∀ name,
     name ∈ selected_games
              (checkbox_states (clear_selected_games (select_all_games a)))
     ↔ name ∈ selected_games (checkbox_states a) ∧ name ∉ db a)
  ∧ ((∀ name, name ∈ selected_games (checkbox_states a) → name ∈ db a) →
     selected_games
       (checkbox_states (clear_selected_games (select_all_games a))) = []).
Proof.
  assert (∀ name,
     name ∈ selected_games
              (checkbox_states (clear_selected_games (select_all_games a)))
     ↔ name ∈ selected_games (checkbox_states a) ∧ name ∉ db a) as Hiff.
  { intros name. rewrite !elem_of_selected_games.
    rewrite clear_selected_games_lookup, select_all_games_db.
    rewrite select_all_games_lookup.
    decide_cases; intuition congruence. }
  split; [done|]. intros Hsub.
  apply selected_games_nil. intros name Hname%elem_of_selected_games.
  apply Hiff in Hname as [Hin Hnot]. by apply Hnot, Hsub.
Qed.

Lemma select_then_clear_witness :
  selected_games
    (checkbox_states
       (clear_selected_games
          (select_all_games (App ["Doom"; "Quake"] {["Doom" := true]}))))
  = [].
Proof.
  apply (select_then_clear (App ["Doom"; "Quake"] {["Doom" := true]})).
  intros name Hname. apply elem_of_selected_games in Hname. cbn in Hname.
  apply lookup_singleton_Some in Hname as [<- _]. left.
Defined.

(** ** C5: bulk deletion *)

Definition delete_step (a : app) (game : string) : app :=
  App (delete_game game (db a)) (delete game (checkbox_states a)).

Lemma delete_steps_db (selected : list string) (a : app) (name : string) :
  name ∈ db (foldl delete_step a selected) ↔ name ∈ db a ∧ name ∉ selected.
Proof.
  revert a. induction selected as [|game selected IH]; intros a; cbn [foldl].
  - rewrite elem_of_nil. tauto.
  - rewrite IH. cbn [delete_step db]. rewrite elem_of_delete_game.
    rewrite elem_of_cons. tauto.
Qed.

Lemma delete_steps_lookup (selected : list string) (a : app) (name : string) :
  checkbox_states (foldl delete_step a selected) !! name
  = if decide (name ∈ selected) then None else checkbox_states a !! name.
Proof.
  revert a. induction selected as [|game selected IH]; intros a; cbn [foldl].
  - rewrite decide_False; [done|]. apply not_elem_of_nil.
  - rewrite IH. cbn [delete_step checkbox_states].
    destruct (decide (name = game)) as [->|Hne].
    + rewrite (decide_True (P := game ∈ game :: selected)) by left.
      case_decide; [done|]. by rewrite lookup_delete_eq.
    + rewrite lookup_delete_ne by done. decide_cases.
Qed.

Lemma do_delete_unfold (selected : list string) (a : app) :
  do_delete selected a = refresh_all_games (foldl delete_step a selected).
Proof. reflexivity. Qed.

(** C5.  For every state and every list of selected names, once
    [do_delete] has run, a deleted name is no key of [checkbox_states] any
    more, so it is not among the checked names, whatever its flag was
    before; and it is not in the table. *)
Theorem do_delete_prunes (selected : list string) (a : app) (game : string) :
  game ∈ selected →
  checkbox_states (do_delete selected a) !! game = None
  ∧ (game ∉ selected_games (checkbox_states (do_delete selected a)))
  ∧ (game ∉ db (do_delete selected a)).
Proof.
  intros Hsel.
  assert (game ∉ db (do_delete selected a)) as Hdb.
  { rewrite do_delete_unfold, refresh_all_games_db, delete_steps_db. tauto. }
  assert (checkbox_states (do_delete selected a) !! game = None) as Hcs.
  { rewrite do_delete_unfold, refresh_all_games_lookup, delete_steps_lookup.
    rewrite decide_True by done. rewrite decide_False; [done|].
    rewrite delete_steps_db. tauto. }
  split_and!; [done| |done].
  rewrite elem_of_selected_games, Hcs. done.
Qed.

Lemma do_delete_prunes_witness :
  checkbox_states
    (do_delete ["Halo"] (App ["Halo"; "Doom"] {["Halo" := true]})) !! "Halo"
  = None
  ∧ ("Halo" ∉ selected_games
        (checkbox_states
           (do_delete ["Halo"] (App ["Halo"; "Doom"] {["Halo" := true]}))))
  ∧ ("Halo" ∉ db (do_delete ["Halo"] (App ["Halo"; "Doom"] {["Halo" := true]}))).
Proof.
  apply (do_delete_prunes ["Halo"] (App ["Halo"; "Doom"] {["Halo" := true]})).
  left.
Defined.

(** After the deletion of what [confirm_bulk_deletion] collected, nothing
    is checked. *)
Lemma bulk_deletion_clears_selection (a : app) (selected : list string) :
  confirm_bulk_deletion a = Dialog selected →
  selected_games (checkbox_states (do_delete selected a)) = [].
Proof.
  unfold confirm_bulk_deletion. intros Hc.
  assert (selected = selected_games (checkbox_states a)) as ->.
  { destruct (selected_games (checkbox_states a)); [done|]. congruence. }
  apply selected_games_nil. intros name.
  rewrite do_delete_unfold, refresh_all_games_lookup, delete_steps_lookup.
  case_decide as Hin.
  - case_decide; done.
  - rewrite elem_of_selected_games in Hin.
    destruct (checkbox_states a !! name) as [[]|]; try done.
    case_decide; done.
Qed.

(** ** C7: adding a title twice *)

(** How often [name] occurs in a listing. *)
Definition copies (name : string) (l : list string) : nat :=
  length (filter (λ n, n = name) l).

Lemma copies_absent (name : string) (l : list string) :
  name ∉ l → copies name l = 0.
Proof.
  unfold copies. induction l as [|x l IH]; [done|].
  rewrite not_elem_of_cons. intros [Hne Hl].
  rewrite filter_cons, decide_False by done. auto.
Qed.

Lemma copies_NoDup (name : string) (l : list string) :
  NoDup l → name ∈ l → copies name l = 1.
Proof.
  induction 1 as [|x l Hx Hnd IH]; intros Hin.
  - by apply elem_of_nil in Hin.
  - unfold copies. rewrite filter_cons. apply elem_of_cons in Hin as [->|Hin].
    + rewrite decide_True by done. cbn. f_equal. by apply copies_absent.
    + rewrite decide_False by (by intros ->). by apply IH.
Qed.

Lemma add_game_listed (game : string) (a : app) :
  Str.strip game ≠ EmptyString → Str.strip game ∈ db (add_game game a).1.
Proof.
  intros Hne. unfold add_game. rewrite decide_False by done.
  unfold insert_game. case_decide as Hin; cbn; [done|].
  apply elem_of_app. right. left.
Qed.

Lemma add_game_NoDup (game : string) (a : app) :
  NoDup (db a) → NoDup (db (add_game game a).1).
Proof.
  intros Hnd. unfold add_game. case_decide; [done|].
  destruct (insert_game _ _) as [t'|] eqn:Hins; [|done].
  cbn. by eapply insert_game_NoDup.
Qed.

(** C7.  On a table that satisfies its [UNIQUE] constraint, after
    [add_game] with a title that is not blank the listing holds the
    trimmed title exactly once, and the title is reported as added when it
    was not there before; a second [add_game] with a title that trims to
    the same name is refused with the "already in the list" notice, one
    [IntegrityError], and leaves the whole state as it was, so the
    listing still holds the name exactly once. *)
Theorem add_game_twice (a : app) (game1 game2 : string) :
  NoDup (db a) →
  Str.strip game1 = Str.strip game2 →
  Str.strip game1 ≠ EmptyString →
  copies (Str.strip game1) (get_all_games (db (add_game game1 a).1)) = 1
  ∧ (Str.strip game1 ∉ db a → (add_game game1 a).2 = Added (Str.strip game1))
  ∧ add_game game2 (add_game game1 a).1
    = ((add_game game1 a).1, AlreadyInList (Str.strip game1))
  ∧ copies (Str.strip game1)
      (get_all_games (db (add_game game2 (add_game game1 a).1).1)) = 1.
Proof.
  intros Hnd Heq Hne.
  assert (copies (Str.strip game1) (get_all_games (db (add_game game1 a).1))
          = 1) as Hone.
  { apply copies_NoDup.
    - by apply NoDup_get_all_games, add_game_NoDup.
    - by apply elem_of_get_all_games, add_game_listed. }
  assert (add_game game2 (add_game game1 a).1
          = ((add_game game1 a).1, AlreadyInList (Str.strip game1))) as Htwo.
  { unfold add_game at 1. rewrite <-Heq. rewrite decide_False by done.
    rewrite insert_game_clash; [done|]. by apply add_game_listed. }
  split_and!; [done| |done|by rewrite Htwo].
  intros Hnew. unfold add_game. rewrite decide_False by done.
  by rewrite insert_game_fresh.
Qed.

Lemma add_game_twice_witness :
  copies "Halo" (get_all_games (db (add_game "Halo" (App ["Doom"] ∅)).1)) = 1
  ∧ add_game " Halo " (add_game "Halo" (App ["Doom"] ∅)).1
    = ((add_game "Halo" (App ["Doom"] ∅)).1, AlreadyInList "Halo").
Proof.
  destruct (add_game_twice (App ["Doom"] ∅) "Halo" " Halo ")
    as (H1 & _ & H2 & _).
  - apply (bool_decide_unpack _). vm_compute. exact I.
  - vm_compute. reflexivity.
  - vm_compute. discriminate.
  - split; [exact H1|exact H2].
Defined.

(** ** C9: the roll *)

Section picker.
Context {rng : Type} (randbelow : nat → rng → nat * rng).
Hypothesis randbelow_lt : ∀ n g, 0 < n → (randbelow n g).1 < n.

Lemma random_choice_member (seq : list string) (g : rng) :
  seq ≠ [] → ∃ choice, (random_choice randbelow seq g).1 = Some choice
                       ∧ choice ∈ seq.
Proof.
  intros Hseq. unfold random_choice.
  assert (0 < length seq) as Hlen by (destruct seq; [done|cbn; lia]).
  specialize (randbelow_lt (length seq) g Hlen).
  destruct (randbelow (length seq) g) as [i g']. cbn in *.
  destruct (lookup_lt_is_Some_2 seq i randbelow_lt) as [choice Hc].
  exists choice. split; [done|]. by eapply list_elem_of_lookup_2.
Qed.

(** C9.  With a generator that draws indices below the length,
    [pick_random] reports "no games" exactly when the table is empty;
    on every other table it shows a name of the table; on the table
    that holds only "A" it shows "A", whatever the generator. *)
Theorem pick_random_spec (t : table) (g : rng) :
  ((pick_random randbelow t g).1 = NoGames ↔ t = [])
  ∧ (t ≠ [] → ∃ choice, (pick_random randbelow t g).1 = Chosen choice
                        ∧ choice ∈ t)
  ∧ (pick_random randbelow ["A"] g).1 = Chosen "A".
Proof.
  assert (∀ t', t' ≠ [] →
            ∃ choice, (pick_random randbelow t' g).1 = Chosen choice
                      ∧ choice ∈ t') as Hpick.
  { intros t' Ht'. unfold pick_random.
    assert (get_all_games t' ≠ []) as Hgames.
    { intros Hnil. apply Ht'. apply Permutation_nil_r.
      by rewrite <-Hnil, get_all_games_Permutation. }
    destruct (random_choice_member (get_all_games t') g Hgames)
      as (choice & Hc & Hin).
    exists choice. rewrite elem_of_get_all_games in Hin. split; [|done].
    destruct (get_all_games t'); [done|].
    destruct (random_choice _ _ _) as [[c|] g']; cbn in *; congruence. }
  split_and!.
  - split.
    + intros Hno. destruct t as [|x t]; [done|].
      destruct (Hpick (x :: t)) as (choice & Hc & _); congruence.
    + by intros ->.
  - apply Hpick.
  - destruct (Hpick ["A"]) as (choice & Hc & Hin); [done|].
    by apply list_elem_of_singleton in Hin as ->.
Qed.
End picker.

Lemma pick_random_spec_witness :
  ((pick_random (λ n g, (g mod n, S g)) ["Doom"; "Quake"] 7).1 = NoGames
   ↔ ["Doom"; "Quake"] = [])
  ∧ (["Doom"; "Quake"] ≠ [] →
     ∃ choice,
       (pick_random (λ n g, (g mod n, S g)) ["Doom"; "Quake"] 7).1
       = Chosen choice ∧ choice ∈ ["Doom"; "Quake"])
  ∧ (pick_random (λ n g, (g mod n, S g)) ["A"] 7).1 = Chosen "A".
Proof.
  apply (pick_random_spec (λ n g, (g mod n, S g))).
  intros n g Hn. cbn. apply Nat.mod_upper_bound. lia.
Defined.

(** ** C6 and C10: the import *)

(** The loop of [handle_csv_upload] seen from its candidates, the first
    fields of the rows that have one. *)
Definition import_batch (raw_lines : list string) (st : import_state)
    : import_state :=
  foldl (λ st raw, import_game raw st) st raw_lines.

Definition candidates (rows : list (list string)) : list string :=
  omap head rows.

(** The names a batch asks to insert: trimmed, blanks dropped. *)
Definition trimmed_names (raw_lines : list string) : list string :=
  filter (λ name, name ≠ EmptyString) (Str.strip <$> raw_lines).

Lemma import_rows_candidates (rows : list (list string)) (st : import_state) :
  import_rows rows st = import_batch (candidates rows) st.
Proof.
  unfold import_rows, import_batch, candidates. revert st.
  induction rows as [|[|field0 row] rows IH]; intros st; cbn; auto.
Qed.

Lemma import_game_blank (raw : string) (st : import_state) :
  Str.strip raw = EmptyString → import_game raw st = st.
Proof. intros H. unfold import_game. by rewrite decide_True. Qed.

Lemma import_game_new (raw : string) (st : import_state) :
  Str.strip raw ≠ EmptyString → Str.strip raw ∉ import_db st →
  import_game raw st
  = Import (import_db st ++ [Str.strip raw]) (imported st + 1) (skipped st).
Proof.
  intros H1 H2. unfold import_game.
  by rewrite decide_False, insert_game_fresh.
Qed.

Lemma import_game_duplicate (raw : string) (st : import_state) :
  Str.strip raw ≠ EmptyString → Str.strip raw ∈ import_db st →
  import_game raw st = Import (import_db st) (imported st) (skipped st + 1).
Proof.
  intros H1 H2. unfold import_game.
  by rewrite decide_False, insert_game_clash.
Qed.

Lemma trimmed_names_cons (raw : string) (raw_lines : list string) :
  trimmed_names (raw :: raw_lines)
  = if decide (Str.strip raw = EmptyString) then trimmed_names raw_lines
    else Str.strip raw :: trimmed_names raw_lines.
Proof.
  unfold trimmed_names. cbn [fmap list_fmap]. rewrite filter_cons.
  decide_cases.
Qed.

(** What a batch leaves behind: every line that is not blank is counted
    once; the imported ones are the distinct new names, and the table
    gains exactly these. *)
Lemma import_batch_effect (raw_lines : list string) (st : import_state) :
  let st' := import_batch raw_lines st in
  imported st' + skipped st'
  = imported st + skipped st + length (trimmed_names raw_lines)
  ∧ imported st'
    = imported st
      + size (list_to_set (trimmed_names raw_lines)
              ∖ list_to_set (import_db st) : gset string)
  ∧ length (import_db st') + imported st
    = length (import_db st) + imported st'
  ∧ (∀ name, name ∈ import_db st'
             ↔ name ∈ import_db st ∨ name ∈ trimmed_names raw_lines).
Proof.
  revert st. induction raw_lines as [|raw raw_lines IH]; intros st.
  - cbn zeta. unfold import_batch. cbn [foldl].
    change (trimmed_names []) with (@nil string).
    split_and!; [cbn [length]; lia| |lia|].
    + assert (list_to_set [] ∖ list_to_set (import_db st)
              = (∅ : gset string)) as ->.
      { apply set_eq. intros x.
        rewrite elem_of_difference, elem_of_list_to_set.
        rewrite elem_of_nil, elem_of_empty. tauto. }
      rewrite size_empty. lia.
    + intros name. rewrite elem_of_nil. tauto.
  - cbn zeta. unfold import_batch. cbn [foldl].
    fold (import_batch raw_lines (import_game raw st)).
    destruct (IH (import_game raw st)) as (IH1 & IH2 & IH3 & IH4).
    rewrite trimmed_names_cons.
    destruct (decide (Str.strip raw = EmptyString)) as [Hblank|Hname].
    { rewrite (import_game_blank raw st Hblank) in *. done. }
    destruct (decide (Str.strip raw ∈ import_db st)) as [Hdup|Hnew].
    + rewrite (import_game_duplicate raw st Hname Hdup) in *.
      cbn [imported skipped import_db length] in *.
      split_and!; [lia| |lia|].
      * rewrite IH2. f_equal. f_equal. cbn [list_to_set foldr].
        apply set_eq. intros x. rewrite !elem_of_difference, elem_of_union.
        rewrite !elem_of_list_to_set, elem_of_singleton.
        split; [tauto|]. intros [[->|Hx] Hnot]; tauto.
      * intros name. rewrite IH4, elem_of_cons.
        split; [tauto|]. intros [?|[->|?]]; tauto.
    + rewrite (import_game_new raw st Hname Hnew) in *.
      cbn [imported skipped import_db] in *.
      rewrite length_app in IH3. cbn [length] in *.
      split_and!; [lia| |lia|].
      * rewrite IH2.
        replace (list_to_set (Str.strip raw :: trimmed_names raw_lines)
                 ∖ list_to_set (import_db st) : gset string)
          with ({[Str.strip raw]}
                ∪ (list_to_set (trimmed_names raw_lines)
                   ∖ list_to_set (import_db st ++ [Str.strip raw])
                   : gset string)).
        { rewrite (size_union (C:=gset string) {[Str.strip raw]}
                     (list_to_set (trimmed_names raw_lines)
                      ∖ list_to_set (import_db st ++ [Str.strip raw])));
            [rewrite (size_singleton (C:=gset string)); lia|].
          intros x ->%elem_of_singleton. rewrite elem_of_difference.
          rewrite !elem_of_list_to_set, elem_of_app, list_elem_of_singleton.
          tauto. }
        apply set_eq. intros x. cbn [list_to_set foldr].
        rewrite !elem_of_union, !elem_of_difference, elem_of_union.
        rewrite !elem_of_list_to_set, elem_of_app, list_elem_of_singleton.
        rewrite elem_of_singleton.
        destruct (decide (x = Str.strip raw)) as [->|]; tauto.
      * intros name. rewrite IH4, elem_of_app, !elem_of_cons, elem_of_nil.
        tauto.
Qed.

(** *** The reader never fails on lines cut by [splitlines] *)

Fixpoint all_chars (P : ascii → bool) (s : string) : bool :=
  match s with
  | EmptyString => true
  | String c s' => P c && all_chars P s'
  end.

Definition no_linebreak (s : string) : bool :=
  all_chars (λ c, negb (Char.is_linebreak c)) s.

Lemma all_chars_rev_app (P : ascii → bool) (s1 s2 : string) :
  all_chars P (String.rev_app s1 s2) = all_chars P s1 && all_chars P s2.
Proof.
  revert s2. induction s1 as [|c s1 IH]; intros s2; [done|].
  cbn. rewrite IH. cbn. destruct (P c), (all_chars P s1); done.
Qed.

Lemma all_chars_rev (P : ascii → bool) (s : string) :
  all_chars P (String.rev s) = all_chars P s.
Proof.
  unfold String.rev. rewrite all_chars_rev_app. cbn. apply andb_true_r.
Qed.

Lemma splitlines_go_no_linebreak (cur s : string) :
  no_linebreak cur = true →
  Forall (λ line, no_linebreak line = true) (Str.splitlines_go cur s).
Proof.
  remember (String.length s) as n eqn:Hn. revert s Hn cur.
  induction n as [n IH] using lt_wf_ind. intros s -> cur Hcur.
  assert (∀ s' cur', String.length s' < String.length s →
            no_linebreak cur' = true →
            Forall (λ line, no_linebreak line = true)
                   (Str.splitlines_go cur' s')) as IH'.
  { intros s' cur' Hlt. by eapply IH. }
  clear IH. rename IH' into IH.
  destruct s as [|c s]; cbn [Str.splitlines_go].
  - destruct cur; [constructor|].
    constructor; [|constructor]. unfold no_linebreak.
    by rewrite all_chars_rev.
  - destruct (Char.is_linebreak c) eqn:Hc.
    + constructor.
      { unfold no_linebreak. by rewrite all_chars_rev. }
      destruct s as [|c' s'].
      * apply IH; [cbn; lia|done].
      * destruct (_ && _); apply IH; cbn; try lia; done.
    + apply IH; [cbn; lia|]. unfold no_linebreak in *. cbn. by rewrite Hc.
Qed.

Lemma splitlines_no_linebreak (s : string) :
  Forall (λ line, no_linebreak line = true) (Str.splitlines s).
Proof. by apply splitlines_go_no_linebreak. Qed.

Lemma newline_is_linebreak (c : ascii) :
  Csv.is_newline c = true → Char.is_linebreak c = true.
Proof. ascii_cases c. Qed.

(** A text that fits into one field: no longer than the limit. *)
Definition within_limit (s : string) : Prop :=
  (N.of_nat (String.length s) <= Csv.field_limit)%N.

Global Instance within_limit_dec (s : string) : Decision (within_limit s).
Proof. unfold within_limit. apply _. Defined.

Fixpoint total_length (lines : list string) : nat :=
  match lines with
  | [] => 0
  | line :: lines' => String.length line + total_length lines'
  end.

Lemma length_rev_app (s1 s2 : string) :
  String.length (String.rev_app s1 s2)
  = String.length s1 + String.length s2.
Proof.
  revert s2. induction s1 as [|c s1 IH]; intros s2; [done|].
  cbn [String.rev_app String.length]. rewrite IH. cbn [String.length]. lia.
Qed.

Lemma length_rev (s : string) : String.length (String.rev s) = String.length s.
Proof. unfold String.rev. rewrite length_rev_app. cbn. lia. Qed.

(** The lines hold no more characters than the text they are cut from. *)
Lemma splitlines_go_length (cur s : string) :
  total_length (Str.splitlines_go cur s)
  ≤ String.length cur + String.length s.
Proof.
  remember (String.length s) as n eqn:Hn. revert s Hn cur.
  induction n as [n IH] using lt_wf_ind. intros s -> cur.
  assert (∀ s' cur', String.length s' < String.length s →
            total_length (Str.splitlines_go cur' s')
            ≤ String.length cur' + String.length s') as IH'.
  { intros s' cur' Hlt. by eapply IH. }
  clear IH. rename IH' into IH.
  destruct s as [|c s]; cbn [Str.splitlines_go].
  - destruct cur; [done|]. cbn [total_length].
    rewrite length_rev. cbn [String.length]. lia.
  - destruct (Char.is_linebreak c).
    + cbn [total_length]. rewrite length_rev.
      destruct s as [|c' s'].
      * specialize (IH EmptyString EmptyString).
        cbn [String.length] in *. lia.
      * destruct (_ && _).
        -- specialize (IH s' EmptyString). cbn [String.length] in *. lia.
        -- specialize (IH (String c' s') EmptyString).
           cbn [String.length] in *. lia.
    + specialize (IH s (String c cur)). cbn [String.length] in *. lia.
Qed.

Lemma parse_add_char_ok (c : ascii) (r : Csv.reader) :
  (Csv.field_len r < Csv.field_limit)%N →
  Csv.parse_add_char c r
  = Some (Csv.Reader (Csv.state r) (String c (Csv.field r)) (Csv.fields r)).
Proof.
  intros Hlen. unfold Csv.parse_add_char.
  by destruct (N.ltb_spec (Csv.field_len r) Csv.field_limit); [|lia].
Qed.

(** Under the limit a character that is no newline is always taken, and
    the field grows by one character at most. *)
Lemma parse_process_char_ok (r : Csv.reader) (c : ascii) :
  Csv.is_newline c = false → Csv.state r ≠ Csv.EAT_CRNL →
  (Csv.field_len r < Csv.field_limit)%N →
  ∃ r', Csv.parse_process_char r (Csv.Chr c) = Some r'
        ∧ Csv.state r' ≠ Csv.EAT_CRNL
        ∧ (Csv.field_len r' <= Csv.field_len r + 1)%N.
Proof.
  intros Hc Hr Hlen. unfold Csv.parse_process_char, Csv.start_field.
  rewrite (parse_add_char_ok c r Hlen).
  destruct (Csv.state r) eqn:Hs; try done; rewrite ?Hc;
    repeat case_bool_decide; eexists;
    (split; [reflexivity|]);
    (split; [cbn; rewrite ?Hs; done|]);
    unfold Csv.field_len; cbn [Csv.field Csv.set_state Csv.parse_save_field
                                 String.length]; lia.
Qed.

Lemma parse_process_eol_ok (r : Csv.reader) :
  ∃ r', Csv.parse_process_char r Csv.EOL = Some r'
        ∧ Csv.state r' ≠ Csv.EAT_CRNL
        ∧ (Csv.field_len r' <= Csv.field_len r)%N.
Proof.
  unfold Csv.parse_process_char, Csv.start_field.
  destruct (Csv.state r) eqn:Hs;
    eexists; (split; [reflexivity|]);
    (split; [cbn; rewrite ?Hs; done|]);
    unfold Csv.field_len; cbn [Csv.field Csv.set_state Csv.parse_save_field
                                 String.length]; lia.
Qed.

Lemma parse_line_ok (r : Csv.reader) (line : string) :
  no_linebreak line = true → Csv.state r ≠ Csv.EAT_CRNL →
  (Csv.field_len r + N.of_nat (String.length line) <= Csv.field_limit)%N →
  ∃ r', Csv.parse_line r line = Some r'
        ∧ Csv.state r' ≠ Csv.EAT_CRNL
        ∧ (Csv.field_len r'
           <= Csv.field_len r + N.of_nat (String.length line))%N.
Proof.
  revert r. induction line as [|c line IH]; intros r Hline Hr Hlen.
  - destruct (parse_process_eol_ok r) as (r' & Hr' & Hs' & Hl').
    exists r'. split_and!; [done|done|]. cbn [String.length]. lia.
  - unfold no_linebreak in Hline. cbn in Hline.
    apply andb_true_iff in Hline as [Hc Hline].
    assert (Csv.is_newline c = false) as Hnl.
    { destruct (Csv.is_newline c) eqn:E; [|done].
      apply newline_is_linebreak in E. by rewrite E in Hc. }
    cbn [String.length] in Hlen |- *.
    destruct (parse_process_char_ok r c Hnl Hr) as (r1 & Hr1 & Hs1 & Hl1);
      [lia|].
    cbn [Csv.parse_line]. rewrite Hr1.
    destruct (IH r1 Hline Hs1) as (r' & Hr' & Hs' & Hl'); [lia|].
    exists r'. split_and!; [done|done|lia].
Qed.

Lemma read_within_limit (r : Csv.reader) (lines : list string) :
  Forall (λ line, no_linebreak line = true) lines →
  Csv.state r ≠ Csv.EAT_CRNL →
  (Csv.field_len r + N.of_nat (total_length lines) <= Csv.field_limit)%N →
  (Csv.read r lines).2 = false.
Proof.
  intros Hlines. revert r.
  induction Hlines as [|line lines Hline Hlines IH]; intros r Hr Hlen.
  - cbn. by case_bool_decide.
  - cbn [Csv.read]. cbn [total_length] in Hlen.
    destruct (parse_line_ok r line Hline Hr) as (r' & -> & Hr' & Hl'); [lia|].
    case_decide.
    + specialize (IH Csv.parse_reset).
      destruct (Csv.read Csv.parse_reset lines). cbn in *. apply IH; [done|].
      change (Csv.field_len Csv.parse_reset) with 0%N. lia.
    + apply IH; [done|lia].
Qed.

(** An upload of at most [field_limit] characters never ends in
    [csv.Error]. *)
Lemma upload_within_limit (content : string) :
  within_limit content →
  (Csv.reader_rows (Str.splitlines content)).2 = false.
Proof.
  unfold within_limit. intros Hlen.
  apply read_within_limit; [apply splitlines_no_linebreak|done|].
  pose proof (splitlines_go_length EmptyString content) as Htotal.
  fold (Str.splitlines content) in Htotal. cbn [String.length] in Htotal.
  unfold Csv.field_len. cbn [Csv.parse_reset Csv.field String.length]. lia.
Qed.

(** *** Lines without csv structure are their own candidate *)

(** A line that holds no delimiter, no quote character and no newline. *)
Definition plain_char (c : ascii) : bool :=
  negb (Csv.is_newline c) && negb (bool_decide (c = Csv.quotechar))
  && negb (bool_decide (c = Csv.delimiter)).

Definition plain_line (line : string) : bool := all_chars plain_char line.

Lemma rev_app_rev_app (s1 s2 s3 : string) :
  String.rev_app (String.rev_app s1 s2) s3 = String.rev_app s2 (s1 +:+ s3).
Proof.
  revert s2 s3. induction s1 as [|c s1 IH]; intros s2 s3; [done|].
  cbn [String.rev_app]. by rewrite IH.
Qed.

Lemma app_empty_r (s : string) : s +:+ EmptyString = s.
Proof.
  induction s as [|c s IH]; [done|]. by rewrite app_cons, IH.
Qed.

Lemma rev_involutive (s : string) : String.rev (String.rev s) = s.
Proof.
  unfold String.rev. rewrite rev_app_rev_app. cbn [String.rev_app].
  apply app_empty_r.
Qed.

Lemma plain_char_inv (c : ascii) :
  plain_char c = true →
  Csv.is_newline c = false
  ∧ bool_decide (c = Csv.quotechar) = false
  ∧ bool_decide (c = Csv.delimiter) = false.
Proof.
  unfold plain_char. rewrite !andb_true_iff, !negb_true_iff. tauto.
Qed.

Lemma parse_line_in_field (line field : string) (fields : list string) :
  plain_line line = true →
  (N.of_nat (String.length field + String.length line) <= Csv.field_limit)%N →
  Csv.parse_line (Csv.Reader Csv.IN_FIELD field fields) line
  = Some (Csv.Reader Csv.START_RECORD EmptyString
            (String.rev (String.rev_app line field) :: fields)).
Proof.
  revert field. induction line as [|c line IH]; intros field Hline Hlen;
    [done|].
  cbn in Hline. apply andb_true_iff in Hline as [Hc Hline].
  destruct (plain_char_inv c Hc) as (Hnl & _ & Hd).
  cbn [String.length] in Hlen.
  cbn [Csv.parse_line]. unfold Csv.parse_process_char. cbn [Csv.state].
  rewrite Hnl, Hd. rewrite parse_add_char_ok.
  - cbn [Csv.state Csv.field Csv.fields]. rewrite IH; [done|done|].
    cbn [String.length]. lia.
  - unfold Csv.field_len. cbn [Csv.field]. lia.
Qed.

Lemma parse_line_plain (line : string) :
  plain_line line = true → within_limit line →
  ∃ r, Csv.parse_line Csv.parse_reset line = Some r
       ∧ Csv.state r = Csv.START_RECORD
       ∧ Csv.record_of r
         = if decide (line = EmptyString) then [] else [line].
Proof.
  unfold within_limit. intros Hline Hlen. destruct line as [|c line].
  - exists Csv.parse_reset. done.
  - cbn in Hline. apply andb_true_iff in Hline as [Hc Hline].
    destruct (plain_char_inv c Hc) as (Hnl & Hq & Hd).
    cbn [String.length] in Hlen.
    cbn [Csv.parse_line]. unfold Csv.parse_process_char, Csv.parse_reset.
    cbn [Csv.state]. rewrite Hnl. unfold Csv.start_field. rewrite Hnl, Hq, Hd.
    rewrite parse_add_char_ok
      by (unfold Csv.field_len; cbn [Csv.field String.length]; lia).
    cbn [fmap option_fmap option_map]. unfold Csv.set_state.
    cbn [Csv.state Csv.field Csv.fields].
    rewrite parse_line_in_field; [|done|cbn [String.length]; lia].
    eexists. split; [reflexivity|]. split; [done|].
    unfold Csv.record_of. cbn [Csv.fields].
    change (String.rev_app line (String c EmptyString))
      with (String.rev (String c line)).
    by rewrite rev_involutive.
Qed.

Lemma reader_rows_plain (lines : list string) :
  Forall (λ line, plain_line line = true) lines →
  Forall within_limit lines →
  Csv.reader_rows lines
  = ((λ line, if decide (line = EmptyString) then [] else [line]) <$> lines,
     false).
Proof.
  unfold Csv.reader_rows. induction 1 as [|line lines Hline _ IH]; [done|].
  intros [Hlen Hlens]%Forall_cons.
  cbn [Csv.read].
  destruct (parse_line_plain line Hline Hlen) as (r & -> & Hs & Hr).
  rewrite decide_True by done. by rewrite IH, Hr.
Qed.

(** The limit is met: a line without csv structure that is longer than
    the limit makes the reader raise [csv.Error], and no row of that line
    or of the lines after it is yielded. *)
Lemma parse_line_too_long (line field : string) (fields : list string) :
  plain_line line = true →
  (N.of_nat (String.length field) <= Csv.field_limit)%N →
  (Csv.field_limit < N.of_nat (String.length field + String.length line))%N →
  Csv.parse_line (Csv.Reader Csv.IN_FIELD field fields) line = None.
Proof.
  revert field. induction line as [|c line IH]; intros field Hline Hfield Hlen.
  { cbn [String.length] in Hlen. lia. }
  cbn in Hline. apply andb_true_iff in Hline as [Hc Hline].
  destruct (plain_char_inv c Hc) as (Hnl & _ & Hd).
  cbn [String.length] in Hlen.
  cbn [Csv.parse_line]. unfold Csv.parse_process_char. cbn [Csv.state].
  rewrite Hnl, Hd. unfold Csv.parse_add_char, Csv.field_len. cbn [Csv.field].
  destruct (N.ltb_spec (N.of_nat (String.length field)) Csv.field_limit);
    [|done].
  cbn [Csv.state Csv.fields]. apply IH; [done| |]; cbn [String.length]; lia.
Qed.

Lemma long_line_raises (line : string) (lines : list string) :
  plain_line line = true → ¬ within_limit line →
  Csv.reader_rows (line :: lines) = ([], true).
Proof.
  unfold within_limit, Csv.reader_rows. intros Hline Hlen.
  destruct line as [|c line].
  { cbn [String.length] in Hlen. unfold Csv.field_limit in Hlen. lia. }
  cbn in Hline. apply andb_true_iff in Hline as [Hc Hline].
  destruct (plain_char_inv c Hc) as (Hnl & Hq & Hd).
  cbn [String.length] in Hlen.
  cbn [Csv.read Csv.parse_line]. unfold Csv.parse_process_char, Csv.parse_reset.
  cbn [Csv.state]. rewrite Hnl. unfold Csv.start_field. rewrite Hnl, Hq, Hd.
  rewrite parse_add_char_ok
    by (unfold Csv.field_len, Csv.field_limit; cbn [Csv.field String.length];
        lia).
  cbn [fmap option_fmap option_map]. unfold Csv.set_state.
  cbn [Csv.state Csv.field Csv.fields].
  rewrite parse_line_too_long; [done|done| |].
  - unfold Csv.field_limit. cbn [String.length]. lia.
  - cbn [String.length]. lia.
Qed.

Lemma import_batch_blank (raw : string) (raw_lines : list string)
    (st : import_state) :
  Str.strip raw = EmptyString →
  import_batch (raw :: raw_lines) st = import_batch raw_lines st.
Proof.
  intros Hraw. unfold import_batch. cbn [foldl].
  by rewrite import_game_blank.
Qed.

(** On lines without csv structure, none longer than the field limit, the
    rows are the lines themselves: the import of the rows is the import of
    the lines. *)
Lemma import_rows_plain (lines : list string) (st : import_state) :
  Forall (λ line, plain_line line = true) lines →
  Forall within_limit lines →
  import_rows (Csv.reader_rows lines).1 st = import_batch lines st.
Proof.
  intros Hlines Hlens. rewrite (reader_rows_plain lines Hlines Hlens).
  cbn [fst]. clear Hlines Hlens. unfold import_rows, import_batch. revert st.
  induction lines as [|line lines IH]; intros st; [done|].
  rewrite fmap_cons. cbn [foldl]. rewrite IH.
  destruct (decide (line = EmptyString)) as [->|Hne]; cbn [import_row]; [|done].
  by rewrite import_game_blank.
Qed.

Definition newline : string := String "010"%char EmptyString.

(** The upload of the scenario: four lines, the second one empty. *)
Definition halo_upload : string :=
  "Halo" +:+ newline +:+ newline +:+ " Halo " +:+ newline +:+ "Portal".

(** C6.  For every batch of raw candidate lines and every state of the
    import: a line is trimmed; a line that trims to the empty string
    changes neither the table nor a counter; any other line is inserted,
    and [imported] grows by one when the insert succeeds, [skipped] by one
    when it raises [IntegrityError]; in both cases the loop goes on with
    the rest of the batch.  Over the whole batch every line that is not
    blank is counted in exactly one of the two counters, [imported] grows
    by the number of distinct new names, and every such name is in the
    table at the end.  When the lines hold no comma, quote or newline and
    none is longer than the field limit of csv.reader (131072 characters),
    the reader raises no error and the rows it makes of them are imported
    in just this way.  The batch "Halo", "", " Halo ", "Portal" on the
    empty table gives imported = 2 and skipped = 1, also when it is
    uploaded as a file. *)
Theorem import_batch_spec (raw : string) (raw_lines : list string)
    (st : import_state) :
  import_batch (raw :: raw_lines) st
  = import_batch raw_lines
      (if decide (Str.strip raw = EmptyString) then st
       else match insert_game (Str.strip raw) (import_db st) with
            | Executed t' => Import t' (imported st + 1) (skipped st)
            | IntegrityError =>
                Import (import_db st) (imported st) (skipped st + 1)
            end)
  ∧ imported (import_batch raw_lines st) + skipped (import_batch raw_lines st)
    = imported st + skipped st + length (trimmed_names raw_lines)
  ∧ imported (import_batch raw_lines st)
    = imported st
      + size (list_to_set (trimmed_names raw_lines)
              ∖ list_to_set (import_db st) : gset string)
  ∧ Forall (λ name, name ∈ import_db (import_batch raw_lines st))
           (trimmed_names raw_lines)
  ∧ (Forall (λ line, plain_line line = true) raw_lines →
     Forall within_limit raw_lines →
     (Csv.reader_rows raw_lines).2 = false
     ∧ import_rows (Csv.reader_rows raw_lines).1 st
       = import_batch raw_lines st)
  ∧ import_batch ["Halo"; ""; " Halo "; "Portal"] (Import [] 0 0)
    = Import ["Halo"; "Portal"] 2 1
  ∧ handle_csv_upload halo_upload (App [] ∅)
    = (App ["Halo"; "Portal"] {["Halo" := false; "Portal" := false]},
       Notified 2 1).
Proof.
  destruct (import_batch_effect raw_lines st) as (H1 & H2 & _ & H4).
  split_and!; [done|done|done| | |done|].
  - apply Forall_forall. intros name Hname. apply H4. by right.
  - intros Hplain Hlen. split; [|by apply import_rows_plain].
    by rewrite reader_rows_plain.
  - vm_compute. reflexivity.
Qed.

Lemma import_batch_spec_witness :
  (Csv.reader_rows ["Halo"; ""; " Halo "; "Portal"]).2 = false
  ∧ import_rows (Csv.reader_rows ["Halo"; ""; " Halo "; "Portal"]).1
      (Import [] 0 0)
    = import_batch ["Halo"; ""; " Halo "; "Portal"] (Import [] 0 0).
Proof.
  destruct (import_batch_spec "" ["Halo"; ""; " Halo "; "Portal"]
              (Import [] 0 0)) as (_ & _ & _ & _ & H & _).
  apply H.
  - apply (bool_decide_unpack _). vm_compute. exact I.
  - apply (bool_decide_unpack _). vm_compute. exact I.
Defined.

(** The rows with everything after the first field cut off. *)
Definition first_fields_only (rows : list (list string))
    : list (list string) :=
  take 1 <$> rows.

Lemma candidates_first_fields_only (rows : list (list string)) :
  candidates (first_fields_only rows) = candidates rows.
Proof.
  unfold candidates, first_fields_only.
  induction rows as [|[|field0 row] rows IH]; cbn; [done|done|].
  by f_equal.
Qed.

(** A row that is empty, or whose first field is blank. *)
Definition blank_row (row : list string) : bool :=
  match row with
  | [] => true
  | field0 :: _ => bool_decide (Str.strip field0 = EmptyString)
  end.

Lemma import_row_blank (st : import_state) (row : list string) :
  blank_row row = true → import_row st row = st.
Proof.
  destruct row as [|field0 row]; [done|]. cbn.
  intros H%bool_decide_eq_true. by apply import_game_blank.
Qed.

(** The upload as the import of the candidates that the reader yields:
    when the reader raises [csv.Error] the rows before the error are in
    the table, nothing is notified and the list is not refreshed. *)
Lemma handle_csv_upload_eq (content : string) (a : app) :
  handle_csv_upload content a
  = let st := import_batch
                (candidates (Csv.reader_rows (Str.splitlines content)).1)
                (Import (db a) 0 0) in
    if (Csv.reader_rows (Str.splitlines content)).2
    then (App (import_db st) (checkbox_states a), CsvError)
    else (refresh_all_games (App (import_db st) (checkbox_states a)),
          Notified (imported st) (skipped st)).
Proof.
  unfold handle_csv_upload.
  destruct (Csv.reader_rows (Str.splitlines content)) as [rows raised].
  cbn zeta. cbn [fst snd]. by rewrite import_rows_candidates.
Qed.

(** An upload whose rows carry more than one field. *)
Definition platforms_upload : string :=
  "Halo,Xbox,2001" +:+ newline +:+ " ,Doom" +:+ newline +:+ ",Quake"
    +:+ newline +:+ newline +:+ "Portal,PC" +:+ newline +:+ "Halo,PC".

(** C10.  For every upload, the outcome is the one of the import of the
    first fields of the rows that csv.reader yields: the table and both
    counters are the same when every row is cut after its first field,
    each row adds at most one to the counters, namely when its first field
    does not trim to the empty string, and the names the table gains are
    trimmed first fields.  An empty row and a row whose first field is
    blank leave the table and both counters as they are.  When csv.reader
    raises [csv.Error], on a field of more than 131072 characters, the
    rows it yielded before are imported in this way and nothing is
    reported; an upload of at most 131072 characters is read without
    error and reported. *)
Theorem handle_csv_upload_first_fields (content : string) (a : app)
    (rows : list (list string)) (row : list string) (st : import_state) :
  handle_csv_upload content a
  = (let st := import_batch
                 (candidates (Csv.reader_rows (Str.splitlines content)).1)
                 (Import (db a) 0 0) in
     if (Csv.reader_rows (Str.splitlines content)).2
     then (App (import_db st) (checkbox_states a), CsvError)
     else (refresh_all_games (App (import_db st) (checkbox_states a)),
           Notified (imported st) (skipped st)))
  ∧ (within_limit content →
     (Csv.reader_rows (Str.splitlines content)).2 = false)
  ∧ import_rows rows st = import_rows (first_fields_only rows) st
  ∧ imported (import_rows rows st) + skipped (import_rows rows st)
    = imported st + skipped st + length (trimmed_names (candidates rows))
  ∧ Forall (λ name, name ∈ import_db st
                    ∨ name ∈ trimmed_names (candidates rows))
           (import_db (import_rows rows st))
  ∧ import_rows (row :: rows) st
    = (if blank_row row then import_rows rows st
       else import_rows rows (import_row st row))
  ∧ (handle_csv_upload platforms_upload (App [] ∅)).2 = Notified 2 1
  ∧ db (handle_csv_upload platforms_upload (App [] ∅)).1 = ["Halo"; "Portal"].
Proof.
  split_and!.
  - apply handle_csv_upload_eq.
  - apply upload_within_limit.
  - by rewrite !import_rows_candidates, candidates_first_fields_only.
  - rewrite import_rows_candidates. apply import_batch_effect.
  - rewrite import_rows_candidates. apply Forall_forall. intros name.
    apply import_batch_effect.
  - unfold import_rows. cbn [foldl].
    destruct (blank_row row) eqn:Hrow; [|done].
    by rewrite import_row_blank.
  - vm_compute. reflexivity.
  - vm_compute. reflexivity.
Qed.

Lemma handle_csv_upload_first_fields_witness :
  (Csv.reader_rows (Str.splitlines platforms_upload)).2 = false.
Proof.
  destruct (handle_csv_upload_first_fields platforms_upload (App [] ∅)
              [] [] (Import [] 0 0)) as (_ & H & _).
  apply H. apply (bool_decide_unpack _). vm_compute. exact I.
Defined.

(** ** C1: the word-start group *)

(** The character in front of a position: the last one of the text before
    it, [prev] when that text is empty. *)
Fixpoint last_from (prev : option ascii) (s : string) : option ascii :=
  match s with
  | EmptyString => prev
  | String c s' => last_from (Some c) s'
  end.

Definition last_char (s : string) : option ascii := last_from None s.

Lemma lower_app (s1 s2 : string) :
  Str.lower (s1 +:+ s2) = Str.lower s1 +:+ Str.lower s2.
Proof.
  induction s1 as [|c s1 IH]; [done|].
  rewrite app_cons. cbn [Str.lower]. by rewrite app_cons, IH.
Qed.

Lemma lower_char_idemp (c : ascii) : Char.lower (Char.lower c) = Char.lower c.
Proof. ascii_cases c. Qed.

Lemma is_word_lower (c : ascii) : Char.is_word (Char.lower c) = Char.is_word c.
Proof. ascii_cases c. Qed.

Lemma lower_idemp (s : string) : Str.lower (Str.lower s) = Str.lower s.
Proof.
  induction s as [|c s IH]; [done|]. cbn. by rewrite lower_char_idemp, IH.
Qed.

Lemma word_here_lower (s : string) :
  Re.word_here (Str.lower s) = Re.word_here s.
Proof. destruct s; [done|]. apply is_word_lower. Qed.

Lemma word_before_last_lower (prev : option ascii) (s : string) :
  Re.word_before (last_from (Char.lower <$> prev) (Str.lower s))
  = Re.word_before (last_from prev s).
Proof.
  revert prev. induction s as [|c s IH]; intros prev.
  - destruct prev; [apply is_word_lower|done].
  - cbn [Str.lower last_from]. apply (IH (Some c)).
Qed.

(** The literals of [q] match at a position of the lowercase text exactly
    when a piece of text starts there that is [q] up to case. *)
Lemma match_at_literals (q s : string) (prev : option ascii) :
  Re.match_at true (literals q) prev (Str.lower s) = true
  ↔ ∃ mid post, s = mid +:+ post ∧ Str.lower mid = Str.lower q.
Proof.
  revert s prev. induction q as [|c q IH]; intros s prev.
  - split; [|done]. intros _. by exists EmptyString, s.
  - unfold literals. cbn [String.list_ascii_of_string fmap list_fmap].
    fold (literals q). cbn [Re.match_at]. destruct s as [|t s].
    + split; [done|]. intros (mid & post & Hs & Hmid).
      destruct mid; [done|]. by rewrite app_cons in Hs.
    + cbn [Str.lower]. rewrite andb_true_iff, IH.
      unfold Re.literal_eq. rewrite bool_decide_eq_true, lower_char_idemp.
      split.
      * intros (Hc & mid & post & -> & Hmid).
        exists (String t mid), post. rewrite app_cons. cbn [Str.lower].
        split; [done|]. by rewrite Hmid, Hc.
      * intros (mid & post & Hs & Hmid). destruct mid as [|t' mid]; [done|].
        rewrite app_cons in Hs. cbn [Str.lower] in Hmid.
        injection Hs as -> ->. injection Hmid as Ht Hmid.
        split; [done|]. by exists mid, post.
Qed.

(** [\b] followed by the literals of [q], searched in the lowercase form
    of [s]: some piece of [s] is [q] up to case and starts at a position
    where exactly one neighbour is a word character. *)
Lemma search_from_word_start (q s : string) (prev : option ascii) :
  Re.search_from true (Re.AT_BOUNDARY :: literals q)
    (Char.lower <$> prev) (Str.lower s) = true
  ↔ ∃ pre mid post,
      s = pre +:+ mid +:+ post
      ∧ Str.lower mid = Str.lower q
      ∧ Re.at_boundary (last_from prev pre) (mid +:+ post) = true.
Proof.
  assert (∀ s prev,
    Re.match_at true (Re.AT_BOUNDARY :: literals q)
      (Char.lower <$> prev) (Str.lower s) = true
    ↔ ∃ mid post, s = mid +:+ post ∧ Str.lower mid = Str.lower q
                  ∧ Re.at_boundary prev (mid +:+ post) = true) as Hhere.
  { clear s prev. intros s prev. cbn [Re.match_at].
    rewrite andb_true_iff, match_at_literals.
    unfold Re.at_boundary. rewrite word_here_lower.
    replace (Re.word_before (Char.lower <$> prev))
      with (Re.word_before prev)
      by (destruct prev; [symmetry; apply is_word_lower|done]).
    split.
    - intros (Hb & mid & post & -> & Hmid). by exists mid, post.
    - intros (mid & post & -> & Hmid & Hb). split; [done|]. by exists mid, post. }
  revert prev. induction s as [|t s IH]; intros prev.
  - cbn [Str.lower Re.search_from]. rewrite orb_false_r.
    change EmptyString with (Str.lower EmptyString) at 1. rewrite Hhere.
    split.
    + intros (mid & post & Hs & Hmid & Hb). by exists EmptyString, mid, post.
    + intros (pre & mid & post & Hs & Hmid & Hb).
      destruct pre; [|by rewrite app_cons in Hs].
      rewrite app_empty_l in Hs. by exists mid, post.
  - cbn [Str.lower Re.search_from]. rewrite orb_true_iff.
    change (String (Char.lower t) (Str.lower s))
      with (Str.lower (String t s)) at 1.
    rewrite Hhere. change (Some (Char.lower t)) with (Char.lower <$> Some t).
    rewrite IH. split.
    + intros [(mid & post & Hs & Hmid & Hb)
             |(pre & mid & post & -> & Hmid & Hb)].
      * by exists EmptyString, mid, post.
      * exists (String t pre), mid, post. by rewrite app_cons.
    + intros (pre & mid & post & Hs & Hmid & Hb). destruct pre as [|t' pre].
      * left. rewrite app_empty_l in Hs. by exists mid, post.
      * right. rewrite app_cons in Hs. injection Hs as -> ->.
        by exists pre, mid, post.
Qed.

(** What the guard and the pattern of [partial_matches] say together, for
    every term that is not blank. *)
Lemma elem_of_partial_group (t : table) (term title : string) :
  title ∈ partial_group t term
  ↔ title ∈ t
    ∧ Str.lower title ≠ Str.lower (Str.strip term)
    ∧ ∃ pre mid post,
        title = pre +:+ mid +:+ post
        ∧ Str.lower mid = Str.lower (Str.strip term)
        ∧ Re.at_boundary (last_char pre) (mid +:+ post) = true.
Proof.
  rewrite partial_group_eq. unfold partial_matches.
  rewrite list_elem_of_filter, elem_of_get_all_games. unfold Re.search.
  change (@None ascii) with (Char.lower <$> @None ascii).
  rewrite search_from_word_start, lower_idemp. unfold last_char. tauto.
Qed.





(** Other inputs on which the group differs from the claim: an exact match
    is kept out of the group, and a term that begins with a character
    outside [\w] is found only right after a word character. *)
Example exact_match_not_partial : partial_group ["Doom"] "doom" = [].
Proof. vm_compute. reflexivity. Qed.

Example leading_dot_not_found :
  partial_group [".hack//Infection"] ".hack" = [].
Proof. vm_compute. reflexivity. Qed.

Example leading_hyphen_found_inside :
  partial_group ["Half-Life"] "-life" = ["Half-Life"].
Proof. vm_compute. reflexivity. Qed.

Example interior_not_found : partial_group ["Mario"; "Ario"] "ari" = ["Ario"].
Proof. vm_compute. reflexivity. Qed.

Lemma word_here_same_lower (s1 s2 post : string) :
  Str.lower s1 = Str.lower s2 → s2 ≠ EmptyString →
  Re.word_here (s1 +:+ post) = Re.word_here s2.
Proof.
  intros Heq Hne. destruct s1 as [|c1 s1], s2 as [|c2 s2]; try done.
  rewrite app_cons. cbn in *. injection Heq as Hc _.
  by rewrite <-(is_word_lower c1), Hc, is_word_lower.
Qed.



(** * Further properties of the handlers *)

(** ** The listing and the search do not depend on the order of insertion *)

Lemma get_all_games_perm (t t' : table) :
  t ≡ₚ t' → get_all_games t = get_all_games t'.
Proof.
  intros Hperm. apply (StronglySorted_unique String.le).
  - apply get_all_games_sorted.
  - apply get_all_games_sorted.
  - by rewrite !get_all_games_Permutation.
Qed.

(** X1.  Two tables that hold the same names, inserted in whatever order,
    are listed alike by [get_all_games], searched alike by [search_games],
    shown alike by [refresh_all_games] and rolled alike by [pick_random];
    the listing holds the names of the table, each as often as the table,
    in ascending order of the code points. *)
Theorem listing_canonical {rng : Type} (randbelow : nat → rng → nat * rng)
    (t t' : table) (term : string) (g : rng) :
  t ≡ₚ t' →
  get_all_games t = get_all_games t'
  ∧ get_all_games t ≡ₚ t
  ∧ StronglySorted String.le (get_all_games t)
  ∧ search_games t term = search_games t' term
  ∧ displayed_games t = displayed_games t'
  ∧ pick_random randbelow t g = pick_random randbelow t' g.
Proof.
  intros Hperm. pose proof (get_all_games_perm t t' Hperm) as Heq.
  split_and!.
  - done.
  - apply get_all_games_Permutation.
  - apply get_all_games_sorted.
  - unfold search_games. by rewrite Heq.
  - unfold displayed_games. by rewrite Heq.
  - unfold pick_random. by rewrite Heq.
Qed.

Lemma listing_canonical_witness :
  get_all_games ["Quake"; "Doom"] = get_all_games ["Doom"; "Quake"]
  ∧ search_games ["Quake"; "Doom"] "do" = search_games ["Doom"; "Quake"] "do".
Proof.
  destruct (listing_canonical (λ n g, (g mod n, S g))
              ["Quake"; "Doom"] ["Doom"; "Quake"] "do" 0)
    as (H1 & _ & _ & H2 & _).
  - apply Permutation_swap.
  - split; [exact H1|exact H2].
Defined.

(** ** The shape of a search result *)

(** X2.  The result of [search_games] splits in two: first the titles
    whose lowercase form is the lowercase trimmed term, then titles whose
    lowercase form differs from it; each part is in ascending order of the
    code points, and a blank term gives the empty result. *)
Theorem search_games_exact_first (t : table) (term : string) :
  ∃ exact partial,
    search_games t term = exact ++ partial
    ∧ Forall (λ title, Str.lower title = Str.lower (Str.strip term)) exact
    ∧ Forall (λ title, Str.lower title ≠ Str.lower (Str.strip term)) partial
    ∧ StronglySorted String.le exact
    ∧ StronglySorted String.le partial
    ∧ (Str.strip term = EmptyString → exact = [] ∧ partial = []).
Proof.
  rewrite search_games_groups. case_decide as Hblank.
  - exists [], []. split_and!; try done; constructor.
  - exists (exact_group t term), (partial_group t term). split_and!.
    + done.
    + apply Forall_forall. by intros title [? _]%elem_of_exact_group.
    + apply Forall_forall. by intros title (_ & ? & _)%elem_of_partial_group.
    + apply exact_group_sorted.
    + apply partial_group_sorted.
    + done.
Qed.

Lemma search_games_exact_first_witness :
  ∃ exact partial,
    search_games ["Doom"] "  " = exact ++ partial
    ∧ exact = [] ∧ partial = [].
Proof.
  destruct (search_games_exact_first ["Doom"] "  ")
    as (exact & partial & H1 & _ & _ & _ & _ & H2).
  exists exact, partial. split; [exact H1|].
  apply H2. vm_compute. reflexivity.
Defined.

(** X3.  A search depends on its term only through the lowercase form of
    the trimmed term: terms that differ in case or in surrounding white
    space find the same titles in the same order. *)
Theorem search_games_term_case (t : table) (term term' : string) :
  Str.lower (Str.strip term) = Str.lower (Str.strip term') →
  search_games t term = search_games t term'.
Proof.
  intros Heq. rewrite !search_games_groups.
  unfold exact_group. rewrite !partial_group_eq, Heq.
  destruct (decide (Str.strip term = EmptyString)) as [Hb|Hb],
           (decide (Str.strip term' = EmptyString)) as [Hb'|Hb']; try done.
  - rewrite Hb in Heq. destruct (Str.strip term'); done.
  - rewrite Hb' in Heq. destruct (Str.strip term); done.
Qed.

Lemma search_games_term_case_witness :
  search_games ["Doom"; "Doom Eternal"] " DOOM"
  = search_games ["Doom"; "Doom Eternal"] "doom  ".
Proof.
  apply (search_games_term_case ["Doom"; "Doom Eternal"] " DOOM" "doom  ").
  vm_compute. reflexivity.
Defined.

(** X4.  A title of the table that begins with the term, up to case, is
    found, when the trimmed term begins with a word character. *)
Theorem search_games_finds_prefix (t : table) (term title rest : string)
    (start : string) :
  Re.word_here (Str.strip term) = true →
  title ∈ t →
  title = start +:+ rest →
  Str.lower start = Str.lower (Str.strip term) →
  title ∈ search_games t term.
Proof.
  intros Hword Hin Htitle Hstart. rewrite search_games_groups.
  assert (Str.strip term ≠ EmptyString) as Hne.
  { intros Hb. by rewrite Hb in Hword. }
  rewrite decide_False by done. apply elem_of_app.
  destruct (decide (Str.lower title = Str.lower (Str.strip term))) as [He|He].
  - left. by apply elem_of_exact_group.
  - right. apply elem_of_partial_group. split_and!; [done..|].
    exists EmptyString, start, rest. split_and!; [done..|].
    unfold Re.at_boundary, last_char. cbn [last_from Re.word_before].
    by rewrite (word_here_same_lower start (Str.strip term) rest Hstart Hne),
      Hword.
Qed.

Lemma search_games_finds_prefix_witness :
  "Doom Eternal" ∈ search_games ["Quake"; "Doom Eternal"] "doom e".
Proof.
  apply (search_games_finds_prefix ["Quake"; "Doom Eternal"] "doom e"
           "Doom Eternal" "ternal" "Doom E").
  - vm_compute. reflexivity.
  - apply (bool_decide_unpack _). vm_compute. exact I.
  - reflexivity.
  - vm_compute. reflexivity.
Defined.

(** X5.  On text of the code points U+0000..U+00FF: whatever characters
    the term holds, the pattern that [search_games] builds from it
    compiles, and it is found in the lowercase form of a text exactly when
    a piece of the text is the term up to case and starts where [\b]
    holds: no character of the term acts as a regex operator. *)
Theorem word_start_pattern_literal (term text : string) :
  ∃ word_start_pattern,
    Re.compile (word_start_source term) = Some word_start_pattern
    ∧ (Re.search true word_start_pattern (Str.lower text) = true
       ↔ ∃ pre mid post,
           text = pre +:+ mid +:+ post
           ∧ Str.lower mid = Str.lower term
           ∧ Re.at_boundary (last_char pre) (mid +:+ post) = true).
Proof.
  exists (Re.AT_BOUNDARY :: literals term). split.
  - apply compile_word_start.
  - unfold Re.search, last_char.
    change (@None ascii) with (Char.lower <$> @None ascii) at 1.
    apply search_from_word_start.
Qed.

(** ** What the table holds *)

Definition first_char (s : string) : option ascii :=
  match s with
  | EmptyString => None
  | String c _ => Some c
  end.

Definition not_space (o : option ascii) : Prop :=
  match o with
  | Some c => Char.is_space c = false
  | None => True
  end.

(** A name as the handlers store it: not empty, no white space at either
    end. *)
Definition trimmed_name (name : string) : Prop :=
  name ≠ EmptyString
  ∧ not_space (first_char name) ∧ not_space (last_char name).

(** The table as the handlers keep it: no name twice, every name trimmed. *)
Definition catalog_ok (t : table) : Prop :=
  NoDup t ∧ Forall trimmed_name t.

Lemma lstrip_first (s : string) : not_space (first_char (Str.lstrip s)).
Proof.
  induction s as [|c s IH]; [done|]. cbn [Str.lstrip].
  by destruct (Char.is_space c) eqn:Hc.
Qed.

Lemma lstrip_id (s : string) :
  not_space (first_char s) → Str.lstrip s = s.
Proof. destruct s as [|c s]; [done|]. cbn. by intros ->. Qed.

Lemma last_from_prev (prev : option ascii) (s : string) :
  last_from prev s
  = match last_char s with Some c => Some c | None => prev end.
Proof.
  unfold last_char. revert prev. induction s as [|c s IH]; intros prev; [done|].
  cbn [last_from]. rewrite (IH (Some c)).
  by destruct (last_from None s).
Qed.

Lemma last_char_nonempty (s : string) :
  s ≠ EmptyString → is_Some (last_char s).
Proof.
  destruct s as [|c s]; [done|]. intros _. unfold last_char. cbn [last_from].
  rewrite last_from_prev. by destruct (last_char s).
Qed.

Lemma first_char_rev_app (s acc : string) :
  first_char (String.rev_app s acc)
  = match last_char s with Some c => Some c | None => first_char acc end.
Proof.
  revert acc. induction s as [|c s IH]; intros acc; [done|].
  cbn [String.rev_app]. rewrite IH. unfold last_char at 2. cbn [last_from].
  rewrite last_from_prev. by destruct (last_char s).
Qed.

Lemma first_char_rev (s : string) : first_char (String.rev s) = last_char s.
Proof.
  unfold String.rev. rewrite first_char_rev_app. by destruct (last_char s).
Qed.

Lemma last_from_rev_app (prev : option ascii) (s acc : string) :
  last_from prev (String.rev_app s acc)
  = last_from (match first_char s with Some c => Some c | None => prev end)
      acc.
Proof.
  revert prev acc. induction s as [|c s IH]; intros prev acc; [done|].
  cbn [String.rev_app]. rewrite IH. done.
Qed.

Lemma last_char_rev (s : string) : last_char (String.rev s) = first_char s.
Proof.
  unfold last_char, String.rev. rewrite last_from_rev_app.
  by destruct (first_char s).
Qed.

Lemma lstrip_last (s : string) :
  Str.lstrip s ≠ EmptyString → last_char (Str.lstrip s) = last_char s.
Proof.
  induction s as [|c s IH]; [done|]. cbn [Str.lstrip].
  destruct (Char.is_space c); [|done]. intros Hne.
  rewrite (IH Hne). unfold last_char at 2. cbn [last_from].
  rewrite last_from_prev.
  destruct (last_char_nonempty _ Hne) as [d Hd]. rewrite (IH Hne) in Hd.
  by rewrite Hd.
Qed.

Lemma rev_empty (s : string) : String.rev s = EmptyString → s = EmptyString.
Proof.
  intros H. rewrite <-(rev_involutive s), H. done.
Qed.

(** [str.strip] leaves no white space at either end. *)
Lemma strip_ends (s : string) :
  not_space (first_char (Str.strip s)) ∧ not_space (last_char (Str.strip s)).
Proof.
  unfold Str.strip, Str.rstrip. split.
  - rewrite first_char_rev.
    destruct (decide (Str.lstrip (String.rev (Str.lstrip s)) = EmptyString))
      as [->|Hne]; [done|].
    rewrite (lstrip_last _ Hne), last_char_rev. apply lstrip_first.
  - rewrite last_char_rev. apply lstrip_first.
Qed.

(** A text without white space at either end is its own [strip]. *)
Lemma strip_id (s : string) :
  not_space (first_char s) → not_space (last_char s) → Str.strip s = s.
Proof.
  intros Hfirst Hlast. unfold Str.strip, Str.rstrip.
  rewrite (lstrip_id s Hfirst), lstrip_id, rev_involutive; [done|].
  by rewrite first_char_rev.
Qed.

Lemma strip_trimmed (s : string) :
  Str.strip s ≠ EmptyString → trimmed_name (Str.strip s).
Proof. intros Hne. split; [done|]. apply strip_ends. Qed.

Lemma insert_game_ok (raw : string) (t t' : table) :
  catalog_ok t → Str.strip raw ≠ EmptyString →
  insert_game (Str.strip raw) t = Executed t' → catalog_ok t'.
Proof.
  intros [Hnd Htr] Hne Hins. split; [by eapply insert_game_NoDup|].
  unfold insert_game in Hins. case_decide; [done|]. injection Hins as <-.
  apply Forall_app. split; [done|].
  constructor; [by apply strip_trimmed|constructor].
Qed.

Lemma import_game_ok (raw : string) (st : import_state) :
  catalog_ok (import_db st) → catalog_ok (import_db (import_game raw st)).
Proof.
  intros Hok. unfold import_game. case_decide as Hb; [done|].
  destruct (insert_game _ _) as [t'|] eqn:Hins; [|done].
  cbn [import_db]. by eapply insert_game_ok.
Qed.

Lemma import_rows_ok (rows : list (list string)) (st : import_state) :
  catalog_ok (import_db st) → catalog_ok (import_db (import_rows rows st)).
Proof.
  unfold import_rows. revert st.
  induction rows as [|row rows IH]; intros st Hok; [done|].
  cbn [foldl]. apply IH. destruct row as [|field0 row]; [done|].
  by apply import_game_ok.
Qed.

Lemma handle_csv_upload_db (content : string) (a : app) :
  db (handle_csv_upload content a).1
  = import_db (import_rows (Csv.reader_rows (Str.splitlines content)).1
                 (Import (db a) 0 0)).
Proof.
  unfold handle_csv_upload.
  destruct (Csv.reader_rows (Str.splitlines content)) as [rows [|]]; done.
Qed.

Lemma delete_game_ok (name : string) (t : table) :
  catalog_ok t → catalog_ok (delete_game name t).
Proof.
  intros [Hnd Htr]. split; [by apply delete_game_NoDup|].
  rewrite Forall_forall in Htr |- *.
  intros x [_ Hx]%elem_of_delete_game. by apply Htr.
Qed.

Lemma delete_steps_ok (selected : list string) (a : app) :
  catalog_ok (db a) → catalog_ok (db (foldl delete_step a selected)).
Proof.
  revert a. induction selected as [|game selected IH]; intros a Hok; [done|].
  cbn [foldl]. apply IH. cbn [delete_step db]. by apply delete_game_ok.
Qed.

(** X6.  The handlers keep the table well formed: starting from the empty
    table, whatever is added, uploaded, selected or deleted, the table
    holds no name twice, no empty name and no name with white space at
    either end. *)
Theorem catalog_ok_kept (a : app) (game content : string)
    (selected : list string) :
  catalog_ok (db a) →
  catalog_ok []
  ∧ catalog_ok (db (add_game game a).1)
  ∧ catalog_ok (db (handle_csv_upload content a).1)
  ∧ catalog_ok (db (do_delete selected a))
  ∧ catalog_ok (db (select_all_games a))
  ∧ catalog_ok (db (clear_selected_games a))
  ∧ catalog_ok (db (refresh_all_games a)).
Proof.
  intros Hok. split_and!; try done.
  - split; constructor.
  - unfold add_game. case_decide as Hb; [done|].
    destruct (insert_game _ _) as [t'|] eqn:Hins; [|done].
    cbn [fst]. rewrite refresh_all_games_db. cbn [db].
    by eapply insert_game_ok.
  - rewrite handle_csv_upload_db. by apply import_rows_ok.
  - rewrite do_delete_unfold, refresh_all_games_db. by apply delete_steps_ok.
Qed.

Lemma catalog_ok_kept_witness :
  catalog_ok (db (add_game "  Halo " (App ["Doom"] ∅)).1)
  ∧ catalog_ok (db (handle_csv_upload halo_upload (App ["Doom"] ∅)).1).
Proof.
  destruct (catalog_ok_kept (App ["Doom"] ∅) "  Halo " halo_upload [])
    as (_ & H1 & H2 & _).
  - split.
    + apply (bool_decide_unpack _). vm_compute. exact I.
    + repeat constructor; vm_compute; congruence.
  - split; [exact H1|exact H2].
Defined.

(** X7.  [str.strip] as the handlers use it: the result has no white
    space at either end, stripping again changes nothing, and a text
    without white space at either end is left as it is. *)
Theorem strip_idempotent (s : string) :
  Str.strip (Str.strip s) = Str.strip s
  ∧ not_space (first_char (Str.strip s))
  ∧ not_space (last_char (Str.strip s))
  ∧ (not_space (first_char s) → not_space (last_char s) → Str.strip s = s).
Proof.
  destruct (strip_ends s) as [Hfirst Hlast].
  split_and!; [by apply strip_id|done|done|apply strip_id].
Qed.

Lemma strip_idempotent_witness : Str.strip "Doom Eternal" = "Doom Eternal".
Proof.
  apply (strip_idempotent "Doom Eternal"); vm_compute; reflexivity.
Defined.

(** ** Uploads *)

Lemma import_batch_all_present (raw_lines : list string) (st : import_state) :
  Forall (λ name, name ∈ import_db st) (trimmed_names raw_lines) →
  import_batch raw_lines st
  = Import (import_db st) (imported st)
      (skipped st + length (trimmed_names raw_lines)).
Proof.
  revert st. induction raw_lines as [|raw raw_lines IH]; intros st Hall.
  - unfold import_batch. cbn. destruct st. f_equal. cbn. lia.
  - rewrite trimmed_names_cons in Hall |- *. unfold import_batch. cbn [foldl].
    fold (import_batch raw_lines (import_game raw st)).
    destruct (decide (Str.strip raw = EmptyString)) as [Hb|Hb].
    + rewrite import_game_blank by done. by apply IH.
    + apply Forall_cons in Hall as [Hraw Hall].
      rewrite import_game_duplicate by done. rewrite IH by done.
      cbn [import_db imported skipped length]. f_equal. lia.
Qed.

Lemma import_batch_prefix (raw_lines : list string) (st : import_state) :
  import_db st `prefix_of` import_db (import_batch raw_lines st).
Proof.
  revert st. induction raw_lines as [|raw raw_lines IH]; intros st; [done|].
  unfold import_batch. cbn [foldl].
  fold (import_batch raw_lines (import_game raw st)).
  etrans; [|apply IH]. unfold import_game. case_decide; [done|].
  unfold insert_game. case_decide; cbn [import_db]; [done|].
  by apply prefix_app_r.
Qed.

(** X8.  Uploading the same file a second time, right after an upload
    that reported "Imported: i, Skipped: s", imports nothing: the table
    stays as the first upload left it and the report is "Imported: 0,
    Skipped: i + s". *)
Theorem reupload_imports_nothing (content : string) (a : app) (i s : nat) :
  (handle_csv_upload content a).2 = Notified i s →
  db (handle_csv_upload content (handle_csv_upload content a).1).1
  = db (handle_csv_upload content a).1
  ∧ (handle_csv_upload content (handle_csv_upload content a).1).2
    = Notified 0 (i + s).
Proof.
  rewrite (handle_csv_upload_eq content (handle_csv_upload content a).1).
  rewrite (handle_csv_upload_eq content a). cbn zeta.
  destruct (Csv.reader_rows (Str.splitlines content)).2; [done|].
  cbn [fst snd]. rewrite refresh_all_games_db. cbn [db].
  set (raw_lines := candidates (Csv.reader_rows (Str.splitlines content)).1).
  destruct (import_batch_effect raw_lines (Import (db a) 0 0))
    as (Hcount & _ & _ & Hmem).
  cbn zeta in Hcount, Hmem. cbn [imported skipped import_db] in Hcount, Hmem.
  intros [= <- <-].
  rewrite import_batch_all_present.
  - cbn [import_db imported skipped]. split; [done|]. f_equal. lia.
  - cbn [import_db]. apply Forall_forall. intros name Hname.
    apply Hmem. by right.
Qed.

Lemma reupload_imports_nothing_witness :
  db (handle_csv_upload halo_upload
        (handle_csv_upload halo_upload (App [] ∅)).1).1
  = db (handle_csv_upload halo_upload (App [] ∅)).1
  ∧ (handle_csv_upload halo_upload
       (handle_csv_upload halo_upload (App [] ∅)).1).2
    = Notified 0 (2 + 1).
Proof.
  apply (reupload_imports_nothing halo_upload (App [] ∅) 2 1).
  vm_compute. reflexivity.
Defined.

(** X9.  An upload only appends: the rows that were in the table stay, in
    their place, in front of the new ones, and it checks and unchecks no
    box.  When it ends with its report, every name of the table has a
    check box; when it ends in [csv.Error], [checkbox_states] is left as
    it was. *)
Theorem upload_keeps_rows_and_selection (content : string) (a : app) :
  db a `prefix_of` db (handle_csv_upload content a).1
  ∧ (∀ name,
       checkbox_states (handle_csv_upload content a).1 !! name = Some true
       ↔ checkbox_states a !! name = Some true)
  ∧ match (handle_csv_upload content a).2 with
    | Notified _ _ =>
        Forall (λ name,
                  is_Some (checkbox_states (handle_csv_upload content a).1
                           !! name))
               (db (handle_csv_upload content a).1)
    | CsvError =>
        checkbox_states (handle_csv_upload content a).1 = checkbox_states a
    end.
Proof.
  rewrite (handle_csv_upload_eq content a). cbn zeta.
  set (st := import_batch _ _).
  assert (db a `prefix_of` import_db st) as Hprefix.
  { apply (import_batch_prefix _ (Import (db a) 0 0)). }
  destruct (Csv.reader_rows (Str.splitlines content)).2; cbn [fst snd].
  { by split_and!. }
  split_and!.
  - by rewrite refresh_all_games_db.
  - intros name. rewrite refresh_all_games_lookup. cbn [checkbox_states db].
    destruct (checkbox_states a !! name); [done|]. by case_decide.
  - apply Forall_forall. intros name Hname.
    rewrite refresh_all_games_db in Hname.
    rewrite refresh_all_games_lookup. cbn [checkbox_states db] in *.
    destruct (checkbox_states a !! name); [done|].
    by rewrite decide_True.
Qed.

(** ** The check boxes *)

(** X10.  [refresh_all_games] leaves the table alone, changes no flag
    that exists, gives every name of the table a check box, unchecked
    when it is new, and doing it twice is doing it once. *)
Theorem refresh_all_games_idempotent (a : app) :
  refresh_all_games (refresh_all_games a) = refresh_all_games a
  ∧ db (refresh_all_games a) = db a
  ∧ (∀ name, checkbox_states (refresh_all_games a) !! name = Some true
             ↔ checkbox_states a !! name = Some true)
  ∧ Forall (λ name, is_Some (checkbox_states (refresh_all_games a) !! name))
           (db a)
  ∧ checkbox_states a ⊆ checkbox_states (refresh_all_games a).
Proof.
  split_and!.
  - destruct (refresh_all_games (refresh_all_games a)) as [t cs] eqn:Hrr.
    destruct (refresh_all_games a) as [t' cs'] eqn:Hr.
    assert (t = t') as ->.
    { change t with (db (App t cs)). rewrite <-Hrr. done. }
    f_equal. apply map_eq. intros name.
    change cs with (checkbox_states (App t' cs)). rewrite <-Hrr.
    rewrite refresh_all_games_lookup. cbn [checkbox_states db].
    destruct (cs' !! name) eqn:Hname; [done|].
    case_decide as Hin; [|done].
    change cs' with (checkbox_states (App t' cs')) in Hname.
    rewrite <-Hr, refresh_all_games_lookup in Hname.
    change t' with (db (App t' cs')) in Hin. rewrite <-Hr in Hin.
    rewrite refresh_all_games_db in Hin.
    destruct (checkbox_states a !! name); [done|].
    by rewrite decide_True in Hname.
  - done.
  - intros name. rewrite refresh_all_games_lookup.
    destruct (checkbox_states a !! name); [done|]. by case_decide.
  - apply Forall_forall. intros name Hname.
    rewrite refresh_all_games_lookup.
    destruct (checkbox_states a !! name); [done|]. by rewrite decide_True.
  - apply map_subseteq_spec. intros name b Hname.
    by rewrite refresh_all_games_lookup, Hname.
Qed.

(** X11.  Select All checks the names of the table and leaves the other
    flags as they are; CLEAR unchecks the names of the table and leaves
    the other flags as they are; neither changes the table. *)
Theorem select_and_clear_flags (a : app) (name : string) :
  (checkbox_states (select_all_games a) !! name = Some true
   ↔ name ∈ db a ∨ checkbox_states a !! name = Some true)
  ∧ (checkbox_states (clear_selected_games a) !! name = Some true
     ↔ (name ∉ db a) ∧ checkbox_states a !! name = Some true)
  ∧ db (select_all_games a) = db a
  ∧ db (clear_selected_games a) = db a.
Proof.
  rewrite select_all_games_lookup, clear_selected_games_lookup.
  split_and!; [| |done|done]; case_decide; split; try tauto; try done.
Qed.

(** X12.  After Select All, on a table that is not empty,
    [confirm_bulk_deletion] opens its dialog for the checked names; and
    the deletion of the names that are checked after Select All empties
    the table and leaves nothing checked. *)
Theorem select_all_then_delete (a : app) :
  (db a ≠ [] →
   confirm_bulk_deletion (select_all_games a)
   = Dialog (selected_games (checkbox_states (select_all_games a))))
  ∧ db (do_delete (selected_games (checkbox_states (select_all_games a)))
          (select_all_games a)) = []
  ∧ selected_games
      (checkbox_states
         (do_delete (selected_games (checkbox_states (select_all_games a)))
            (select_all_games a))) = [].
Proof.
  set (selected := selected_games (checkbox_states (select_all_games a))).
  assert (∀ name, name ∈ db a → name ∈ selected) as Hall.
  { intros name Hname. apply elem_of_selected_games.
    rewrite select_all_games_lookup. by rewrite decide_True. }
  split_and!.
  - intros Hne. unfold confirm_bulk_deletion. fold selected.
    destruct selected as [|x l] eqn:Hsel; [|done].
    destruct (db a) as [|name t] eqn:Hdb; [done|].
    assert (name ∈ @nil string) as Hin by (apply Hall; left).
    by apply elem_of_nil in Hin.
  - destruct (db (do_delete _ _)) as [|name t] eqn:Hdb; [done|]. exfalso.
    assert (name ∈ db (do_delete selected (select_all_games a))) as Hin.
    { rewrite Hdb. left. }
    rewrite do_delete_unfold, refresh_all_games_db, delete_steps_db in Hin.
    destruct Hin as [Hin Hnot]. by apply Hnot, Hall.
  - apply selected_games_nil. intros name.
    rewrite do_delete_unfold, refresh_all_games_lookup, delete_steps_lookup.
    case_decide as Hin.
    + case_decide; done.
    + unfold selected in Hin. rewrite elem_of_selected_games in Hin.
      destruct (checkbox_states (select_all_games a) !! name) as [[]|];
        try done.
      case_decide; done.
Qed.

Lemma select_all_then_delete_witness :
  confirm_bulk_deletion (select_all_games (App ["Doom"; "Quake"] ∅))
  = Dialog (selected_games
              (checkbox_states (select_all_games (App ["Doom"; "Quake"] ∅)))).
Proof.
  apply (select_all_then_delete (App ["Doom"; "Quake"] ∅)).
  vm_compute. discriminate.
Defined.

(** X13.  The bulk deletion touches the selected names only: any other
    name is in the table afterwards exactly when it was before, and a
    flag it had is kept. *)
Theorem do_delete_frame (selected : list string) (a : app) (name : string)
    (flag : bool) :
  name ∉ selected →
  (name ∈ db (do_delete selected a) ↔ name ∈ db a)
  ∧ (checkbox_states a !! name = Some flag →
     checkbox_states (do_delete selected a) !! name = Some flag).
Proof.
  intros Hnot. split.
  - rewrite do_delete_unfold, refresh_all_games_db, delete_steps_db. tauto.
  - intros Hflag.
    rewrite do_delete_unfold, refresh_all_games_lookup, delete_steps_lookup.
    rewrite decide_False by done. by rewrite Hflag.
Qed.

Lemma do_delete_frame_witness :
  ("Doom" ∈ db (do_delete ["Halo"]
                  (App ["Halo"; "Doom"] {["Doom" := true]}))
   ↔ "Doom" ∈ db (App ["Halo"; "Doom"] {["Doom" := true]}))
  ∧ (checkbox_states (App ["Halo"; "Doom"] {["Doom" := true]}) !! "Doom"
     = Some true →
     checkbox_states
       (do_delete ["Halo"] (App ["Halo"; "Doom"] {["Doom" := true]}))
     !! "Doom" = Some true).
Proof.
  apply (do_delete_frame ["Halo"] (App ["Halo"; "Doom"] {["Doom" := true]})
           "Doom" true).
  apply (bool_decide_unpack _). vm_compute. exact I.
Defined.

(** ** Adding, finding and deleting a title *)

Lemma strip_strip (s : string) : Str.strip (Str.strip s) = Str.strip s.
Proof. destruct (strip_ends s). by apply strip_id. Qed.

(** X14.  A title that [add_game] has accepted or found already there is
    found by the search for what was typed: the trimmed title is in the
    result, and whatever stands in front of it there is an exact match
    too. *)
Theorem add_game_then_search (game : string) (a : app) :
  Str.strip game ≠ EmptyString →
  Str.strip game ∈ search_games (db (add_game game a).1) game
  ∧ ∃ front back,
      search_games (db (add_game game a).1) game
      = front ++ Str.strip game :: back
      ∧ Forall (λ title, Str.lower title = Str.lower (Str.strip game)) front.
Proof.
  intros Hne.
  assert (Str.strip game ∈ exact_group (db (add_game game a).1) game) as Hex.
  { apply elem_of_exact_group. split; [done|]. by apply add_game_listed. }
  rewrite search_games_groups, decide_False by done. split.
  - apply elem_of_app. by left.
  - pose proof Hex as (front & back & Hsplit)%list_elem_of_split.
    exists front, (back ++ partial_group (db (add_game game a).1) game).
    split; [by rewrite Hsplit, <-app_assoc|].
    apply Forall_forall. intros title Htitle.
    assert (title ∈ exact_group (db (add_game game a).1) game) as Hin.
    { rewrite Hsplit. apply elem_of_app. by left. }
    by apply elem_of_exact_group in Hin as [? _].
Qed.

Lemma add_game_then_search_witness :
  Str.strip " Halo " ∈ search_games (db (add_game " Halo " (App [] ∅)).1)
                         " Halo ".
Proof.
  apply (add_game_then_search " Halo " (App [] ∅)).
  vm_compute. discriminate.
Defined.

(** X15.  A title that the bulk deletion has removed can be added again,
    and it comes back unchecked, whatever its flag was when it was
    deleted. *)
Theorem delete_then_add_unchecked (selected : list string) (a : app)
    (game : string) :
  Str.strip game ≠ EmptyString →
  Str.strip game ∈ selected →
  (add_game game (do_delete selected a)).2 = Added (Str.strip game)
  ∧ checkbox_states (add_game game (do_delete selected a)).1
    !! Str.strip game = Some false
  ∧ Str.strip game ∈ db (add_game game (do_delete selected a)).1.
Proof.
  intros Hne Hsel.
  assert (Str.strip game ∉ db (do_delete selected a)) as Hgone.
  { rewrite do_delete_unfold, refresh_all_games_db, delete_steps_db. tauto. }
  assert (checkbox_states (do_delete selected a) !! Str.strip game = None)
    as Hbox.
  { rewrite do_delete_unfold, refresh_all_games_lookup, delete_steps_lookup.
    rewrite decide_True by done. by rewrite decide_False. }
  unfold add_game. rewrite decide_False by done.
  rewrite insert_game_fresh by done. cbn [fst snd]. split_and!.
  - done.
  - rewrite refresh_all_games_lookup. cbn [checkbox_states db]. rewrite Hbox.
    rewrite decide_True; [done|]. apply elem_of_app. right. left.
  - rewrite refresh_all_games_db. cbn [db]. apply elem_of_app. right. left.
Qed.

Lemma delete_then_add_unchecked_witness :
  (add_game "Halo" (do_delete ["Halo"] (App ["Halo"] {["Halo" := true]}))).2
  = Added (Str.strip "Halo")
  ∧ checkbox_states
      (add_game "Halo"
         (do_delete ["Halo"] (App ["Halo"] {["Halo" := true]}))).1
    !! Str.strip "Halo" = Some false
  ∧ Str.strip "Halo"
    ∈ db (add_game "Halo"
            (do_delete ["Halo"] (App ["Halo"] {["Halo" := true]}))).1.
Proof.
  apply (delete_then_add_unchecked ["Halo"]
           (App ["Halo"] {["Halo" := true]}) "Halo").
  - vm_compute. discriminate.
  - apply (bool_decide_unpack _). vm_compute. exact I.
Defined.

(** X16.  Adding a new title and then deleting it in bulk gives the table
    back as it was. *)
Theorem add_then_delete_restores (game : string) (a : app) :
  Str.strip game ≠ EmptyString →
  Str.strip game ∉ db a →
  db (do_delete [Str.strip game] (add_game game a).1) = db a.
Proof.
  intros Hne Hnew. unfold add_game. rewrite decide_False by done.
  rewrite insert_game_fresh by done. cbn [fst].
  rewrite do_delete_unfold, refresh_all_games_db. cbn [foldl].
  unfold delete_step. rewrite refresh_all_games_db. cbn [db].
  induction (db a) as [|x t IH].
  - unfold delete_game, table.
    rewrite app_nil_l, filter_cons, decide_False by tauto. done.
  - apply not_elem_of_cons in Hnew as [Hx Ht]. unfold delete_game, table in *.
    rewrite <-app_comm_cons, filter_cons, decide_True by done.
    f_equal. by apply IH.
Qed.

Lemma add_then_delete_restores_witness :
  db (do_delete [Str.strip " Halo "] (add_game " Halo " (App ["Doom"] ∅)).1)
  = db (App ["Doom"] ∅).
Proof.
  apply (add_then_delete_restores " Halo " (App ["Doom"] ∅)).
  - vm_compute. discriminate.
  - apply (bool_decide_unpack _). vm_compute. exact I.
Defined.

(** ** The confirmation message and the row ids *)

(** [str.replace(old, new)] for an [old] of one character. *)
Fixpoint replace_char (old : ascii) (new : string) (s : string) : string :=
  match s with
  | EmptyString => EmptyString
  | String c s' =>
      if decide (c = old) then new +:+ replace_char old new s'
      else String c (replace_char old new s')
  end.

(** [html.escape(s)], with [quote=True]: five replacements in a row, the
    ampersand first. *)
Definition html_escape (s : string) : string :=
  let s := replace_char "&" "&amp;" s in
  let s := replace_char "<" "&lt;" s in
  let s := replace_char ">" "&gt;" s in
  let s := replace_char "034" "&quot;" s in
  replace_char "'" "&#x27;" s.

(** Lines 121 to 125: the text of the dialog. *)
Definition confirmation_message (selected : list string) : string :=
  match selected with
  | [game] => "Delete '<strong>" +:+ html_escape game +:+ "</strong>'?"
  | _ => "Delete " +:+ pretty (length selected) +:+ " selected games?"
  end.

(** The id of the row of a game, as [refresh_all_games] sets it and as
    [scroll_to_game] and [handle_input] look it up. *)
Definition row_id (game : string) : string :=
  "game-" +:+ replace_char " " "_" game.

(** The characters that open or close markup or an attribute value. *)
Definition markup_chars : list ascii := ["<"; ">"; "034"; "'"]%char.

Definition markup_free (s : string) : bool :=
  all_chars (λ c, negb (bool_decide (c ∈ markup_chars))) s.

Lemma all_chars_app (P : ascii → bool) (s1 s2 : string) :
  all_chars P (s1 +:+ s2) = all_chars P s1 && all_chars P s2.
Proof.
  induction s1 as [|c s1 IH]; [done|].
  rewrite app_cons. cbn [all_chars]. rewrite IH. apply andb_assoc.
Qed.

(** After a replacement the text satisfies [P] when the new piece does
    and every other character that was there does. *)
Lemma replace_char_all (P Q : ascii → bool) (old : ascii) (new s : string) :
  (∀ c, c ≠ old → Q c = true → P c = true) →
  all_chars P new = true →
  all_chars Q s = true →
  all_chars P (replace_char old new s) = true.
Proof.
  intros Hstep Hnew. induction s as [|c s IH]; [done|].
  cbn [all_chars replace_char]. intros [Hc Hs]%andb_true_iff.
  case_decide as Hold.
  - rewrite all_chars_app, Hnew. by apply IH.
  - cbn [all_chars]. rewrite (Hstep c Hold Hc). by apply IH.
Qed.

Lemma replace_char_absent (old : ascii) (new s : string) :
  all_chars (λ c, negb (bool_decide (c = old))) s = true →
  replace_char old new s = s.
Proof.
  induction s as [|c s IH]; [done|]. cbn [all_chars replace_char].
  intros [Hc Hs]%andb_true_iff. apply negb_true_iff in Hc.
  apply bool_decide_eq_false in Hc. rewrite decide_False by done.
  by rewrite IH.
Qed.

Definition html_chars : list ascii := ["&"; "<"; ">"; "034"; "'"]%char.

Lemma all_chars_impl (P Q : ascii → bool) (s : string) :
  (∀ c, P c = true → Q c = true) →
  all_chars P s = true → all_chars Q s = true.
Proof.
  intros HPQ. induction s as [|c s IH]; [done|]. cbn [all_chars].
  intros [Hc Hs]%andb_true_iff. by rewrite (HPQ c Hc), IH.
Qed.

(** X17.  The name in the confirmation dialog is escaped: whatever the
    selected title, the text placed between the [strong] tags holds no
    [<], no [>] and no quote character, so a title cannot bring markup of
    its own into the dialog; a title that holds none of the five special
    characters is shown as it is. *)
Theorem confirmation_message_escaped (game : string) :
  confirmation_message [game]
  = "Delete '<strong>" +:+ html_escape game +:+ "</strong>'?"
  ∧ markup_free (html_escape game) = true
  ∧ (all_chars (λ c, negb (bool_decide (c ∈ html_chars))) game = true →
     html_escape game = game).
Proof.
  split_and!; [done| |].
  - unfold html_escape, markup_free. cbn zeta.
    apply (replace_char_all _
             (λ c, negb (bool_decide (c ∈ ["<"; ">"; "034"]%char))));
      [|done|].
    { intros c Hc Hq. apply negb_true_iff, bool_decide_eq_false.
      apply negb_true_iff, bool_decide_eq_false in Hq.
      unfold markup_chars. rewrite !elem_of_cons, elem_of_nil in *. tauto. }
    apply (replace_char_all _
             (λ c, negb (bool_decide (c ∈ ["<"; ">"]%char)))); [|done|].
    { intros c Hc Hq. apply negb_true_iff, bool_decide_eq_false.
      apply negb_true_iff, bool_decide_eq_false in Hq.
      rewrite !elem_of_cons, elem_of_nil in *. tauto. }
    apply (replace_char_all _
             (λ c, negb (bool_decide (c ∈ ["<"]%char)))); [|done|].
    { intros c Hc Hq. apply negb_true_iff, bool_decide_eq_false.
      apply negb_true_iff, bool_decide_eq_false in Hq.
      rewrite !elem_of_cons, elem_of_nil in *. tauto. }
    apply (replace_char_all _ (λ _, true)); [|done|].
    { intros c Hc _. apply negb_true_iff, bool_decide_eq_false.
      rewrite !elem_of_cons, elem_of_nil. tauto. }
    apply (replace_char_all _ (λ _, true)); [done|done|].
    induction game as [|c game IH]; [done|]. done.
  - intros Hplain. unfold html_escape. cbn zeta.
    assert (∀ old, old ∈ html_chars →
              all_chars (λ c, negb (bool_decide (c = old))) game = true)
      as Habsent.
    { intros old Hold. eapply all_chars_impl; [|exact Hplain].
      intros c Hc. apply negb_true_iff, bool_decide_eq_false.
      apply negb_true_iff, bool_decide_eq_false in Hc. by intros ->. }
    assert (∀ old new, old ∈ html_chars → replace_char old new game = game)
      as Hsame.
    { intros old new Hold. by apply replace_char_absent, Habsent. }
    rewrite (Hsame "&"%char), (Hsame "<"%char), (Hsame ">"%char),
      (Hsame "034"%char), (Hsame "'"%char);
      try done; unfold html_chars; rewrite !elem_of_cons; tauto.
Qed.

Lemma confirmation_message_escaped_witness :
  html_escape "Doom Eternal" = "Doom Eternal".
Proof.
  apply (confirmation_message_escaped "Doom Eternal").
  vm_compute. reflexivity.
Defined.

Lemma replace_space_cons (c : ascii) (s : string) :
  replace_char " " "_" (String c s)
  = String (if decide (c = " "%char) then "_"%char else c)
      (replace_char " " "_" s).
Proof. cbn [replace_char]. by case_decide. Qed.

(** X18.  The id of a row holds no space, and two titles without an
    underscore that get the same id are the same title: the scroll of
    [scroll_to_game] and [handle_input] then reaches the row of the title
    it was asked for. *)
Theorem row_id_no_space (game1 game2 : string) :
  all_chars (λ c, negb (bool_decide (c = " "%char))) (row_id game1) = true
  ∧ (all_chars (λ c, negb (bool_decide (c = "_"%char))) game1 = true →
     all_chars (λ c, negb (bool_decide (c = "_"%char))) game2 = true →
     row_id game1 = row_id game2 → game1 = game2).
Proof.
  split.
  - unfold row_id. rewrite all_chars_app. apply andb_true_iff. split; [done|].
    apply (replace_char_all _ (λ _, true)); [|done|].
    + intros c Hc _. by apply negb_true_iff, bool_decide_eq_false.
    + by induction game1.
  - unfold row_id. intros H1 H2 Heq. apply (inj (String.app "game-")) in Heq.
    revert game2 H2 Heq.
    induction game1 as [|c1 game1 IH]; intros [|c2 game2] H2 Heq;
      rewrite ?replace_space_cons in Heq; try done.
    cbn [all_chars] in H1, H2.
    apply andb_true_iff in H1 as [Hc1 H1]. apply andb_true_iff in H2 as [Hc2 H2].
    apply negb_true_iff, bool_decide_eq_false in Hc1.
    apply negb_true_iff, bool_decide_eq_false in Hc2.
    injection Heq as Hc Heq. f_equal; [|by apply IH].
    repeat case_decide; congruence.
Qed.

Lemma row_id_no_space_witness :
  row_id "Doom Eternal" = "game-Doom_Eternal"
  ∧ "Doom Eternal" = "Doom Eternal".
Proof.
  split; [reflexivity|].
  apply (row_id_no_space "Doom Eternal" "Doom Eternal");
    vm_compute; reflexivity.
Defined.

(** ** The displayed list *)

Lemma insert_by_key_perm {A} (key : A → string) (x : A) (l : list A) :
  insert_by_key key x l ≡ₚ x :: l.
Proof.
  induction l as [|y l IH]; [done|]. cbn [insert_by_key].
  case_decide; [done|]. by rewrite IH, Permutation_swap.
Qed.

Lemma sort_by_key_perm {A} (key : A → string) (l : list A) :
  sort_by_key key l ≡ₚ l.
Proof.
  unfold sort_by_key. induction l as [|x l IH]; [done|].
  cbn [foldr]. by rewrite insert_by_key_perm, IH.
Qed.

Lemma sort_by_key_sorted {A} (key : A → string) (l : list A) :
  StronglySorted (λ a b, String.le (key a) (key b)) l →
  sort_by_key key l = l.
Proof.
  unfold sort_by_key. induction 1 as [|x l Hl IH Hx]; [done|].
  cbn [foldr]. rewrite IH. destruct l as [|y l]; [done|].
  cbn [insert_by_key]. rewrite decide_True; [done|].
  by apply Forall_cons in Hx as [? _].
Qed.

(** X19.  [refresh_all_games] shows every game of the table, each once per
    row of the table, in ascending case-insensitive order; its count is
    the number of rows; and on a table whose names hold no capital letter
    this is the very order of [get_all_games], the one of the search
    results. *)
Theorem displayed_games_listing (t : table) :
  displayed_games t ≡ₚ t
  ∧ Sorted ci_le (displayed_games t)
  ∧ length (displayed_games t) = length t
  ∧ (Forall (λ name, Str.lower name = name) t →
     displayed_games t = get_all_games t).
Proof.
  assert (displayed_games t ≡ₚ t) as Hperm.
  { unfold displayed_games.
    by rewrite sort_by_key_perm, get_all_games_Permutation. }
  split_and!; [done|apply displayed_games_sorted|by rewrite Hperm|].
  intros Hlow. unfold displayed_games. apply sort_by_key_sorted.
  assert (Forall (λ name, Str.lower name = name) (get_all_games t)) as Hlow'.
  { by rewrite get_all_games_Permutation. }
  pose proof (get_all_games_sorted t) as Hsorted.
  induction Hsorted as [|x l Hl IH Hx]; [constructor|].
  apply Forall_cons in Hlow' as [Hxlow Hllow].
  constructor; [by apply IH|].
  rewrite Forall_forall in Hx, Hllow |- *. intros y Hy.
  rewrite Hxlow, (Hllow y Hy). by apply Hx.
Qed.

Lemma displayed_games_listing_witness :
  displayed_games ["quake"; "doom 3"; "doom"]
  = get_all_games ["quake"; "doom 3"; "doom"].
Proof.
  apply (displayed_games_listing ["quake"; "doom 3"; "doom"]).
  repeat constructor.
Defined.

(** ** The search box *)

(** The state that the search handlers read and write: the program state,
    the global [selected_game] and the text of the search box,
    [search_input.value]. *)
Record session : Type := Session {
  session_app : app;
  selected_game : option string;
  search_value : option string
}.

(** What the handlers put into [search_results]. *)
Inductive results_view : Type :=
| Cleared
| NoMatchesFound
| Labels (games : list string).

(** [(search_input.value or '').strip()] *)
Definition input_term (value : option string) : string :=
  Str.strip (default EmptyString value).

Definition update_search_results (s : session) : results_view :=
  let term := input_term (search_value s) in
  if decide (term = EmptyString) then Cleared
  else
    match search_games (db (session_app s)) term with
    | [] => NoMatchesFound
    | results => Labels results
    end.

(** The handler of the Enter key: the new session, the view, and the id
    of the row that is scrolled to, if any. *)
Definition handle_input (s : session)
    : session * results_view * option string :=
  let term := input_term (search_value s) in
  if decide (term = EmptyString) then
    (Session (refresh_all_games (session_app s)) None (search_value s),
     Cleared, None)
  else
    let matches := search_games (db (session_app s)) term in
    match matches with
    | [] => (s, NoMatchesFound, None)
    | [game] =>
        (Session (refresh_all_games (session_app s)) (Some game)
           (search_value s),
         Labels matches, Some (row_id game))
    | _ =>
        (Session (refresh_all_games (session_app s)) None (search_value s),
         Labels matches, None)
    end.

(** The handler of the clear button and of the backspace key: it also
    empties the search box. *)
Definition clear_search (s : session) : session * results_view :=
  (Session (refresh_all_games (session_app s)) None (Some EmptyString),
   Cleared).

Lemma search_games_input_term (t : table) (value : option string) :
  search_games t (input_term value)
  = search_games t (default EmptyString value).
Proof.
  unfold input_term, search_games. by rewrite strip_strip.
Qed.

Lemma search_games_in_table (t : table) (term name : string) :
  name ∈ search_games t term → name ∈ t.
Proof.
  rewrite search_games_groups. case_decide; [by intros ?%elem_of_nil|].
  intros [Hin|Hin]%elem_of_app.
  - by apply elem_of_exact_group in Hin as [_ ?].
  - by apply elem_of_partial_group in Hin as [? _].
Qed.

(** X20.  Enter in the search box changes neither the table, nor which
    boxes are checked, nor the text of the box, and it shows what the live
    search shows.  On a blank text [selected_game] is reset.  When nothing
    matches, the whole session stays as it is, [selected_game] included,
    and nothing is scrolled.  Otherwise the labels are the results of
    [search_games] on the typed text, each a name of the table with a
    check box; a single result becomes [selected_game] and its row is
    scrolled to, several results reset [selected_game].  After the clear
    button the box is empty, nothing is selected, and both Enter and the
    live search show nothing. *)
Theorem handle_input_spec (s : session) :
  db (session_app (handle_input s).1.1) = db (session_app s)
  ∧ (∀ name,
       checkbox_states (session_app (handle_input s).1.1) !! name = Some true
       ↔ checkbox_states (session_app s) !! name = Some true)
  ∧ search_value (handle_input s).1.1 = search_value s
  ∧ (handle_input s).1.2 = update_search_results s
  ∧ match (handle_input s).1.2 with
    | Cleared =>
        input_term (search_value s) = EmptyString
        ∧ selected_game (handle_input s).1.1 = None
        ∧ (handle_input s).2 = None
    | NoMatchesFound =>
        search_games (db (session_app s))
          (default EmptyString (search_value s)) = []
        ∧ (handle_input s).1.1 = s
        ∧ (handle_input s).2 = None
    | Labels games =>
        games = search_games (db (session_app s))
                  (default EmptyString (search_value s))
        ∧ Forall (λ game,
                    game ∈ db (session_app s)
                    ∧ is_Some (checkbox_states
                                 (session_app (handle_input s).1.1) !! game))
                 games
        ∧ match games with
          | [game] =>
              selected_game (handle_input s).1.1 = Some game
              ∧ (handle_input s).2 = Some (row_id game)
          | _ =>
              selected_game (handle_input s).1.1 = None
              ∧ (handle_input s).2 = None
          end
    end
  ∧ search_value (clear_search s).1 = Some EmptyString
  ∧ selected_game (clear_search s).1 = None
  ∧ db (session_app (clear_search s).1) = db (session_app s)
  ∧ update_search_results (clear_search s).1 = Cleared
  ∧ (handle_input (clear_search s).1).1.2 = Cleared.
Proof.
  assert (∀ name,
    checkbox_states (refresh_all_games (session_app s)) !! name = Some true
    ↔ checkbox_states (session_app s) !! name = Some true) as Hflags.
  { intros name. rewrite refresh_all_games_lookup.
    destruct (checkbox_states (session_app s) !! name); [done|].
    by case_decide. }
  assert (∀ games,
    games = search_games (db (session_app s))
              (default EmptyString (search_value s)) →
    Forall (λ game,
              game ∈ db (session_app s)
              ∧ is_Some (checkbox_states
                           (refresh_all_games (session_app s)) !! game))
           games) as Hrows.
  { intros games ->. apply Forall_forall. intros game Hin.
    apply search_games_in_table in Hin. split; [done|].
    rewrite refresh_all_games_lookup.
    destruct (checkbox_states (session_app s) !! game); [done|].
    by rewrite decide_True. }
  unfold handle_input, update_search_results.
  rewrite search_games_input_term.
  destruct (decide (input_term (search_value s) = EmptyString)) as [Hb|Hb].
  { cbn. split_and!; done. }
  destruct (search_games (db (session_app s))
              (default EmptyString (search_value s)))
    as [|first [|second matches]] eqn:Hsearch;
    cbn [fst snd session_app selected_game search_value].
  - split_and!; try done.
  - split_and!; try done. by apply Hrows.
  - split_and!; try done. by apply Hrows.
Qed.

(** X21.  On text of the code points U+0000..U+00FF: every title that
    [search_games] returns is a name of the table and holds the trimmed
    term, up to case, as one piece. *)
Theorem search_games_hits_contain_term (t : table) (term title : string) :
  title ∈ search_games t term →
  title ∈ t
  ∧ Str.strip term ≠ EmptyString
  ∧ ∃ pre mid post,
      title = pre +:+ mid +:+ post
      ∧ Str.lower mid = Str.lower (Str.strip term).
Proof.
  rewrite search_games_groups. case_decide as Hb.
  { by intros ?%elem_of_nil. }
  intros [Hin|Hin]%elem_of_app.
  - apply elem_of_exact_group in Hin as [Hlow Hin]. split_and!; [done..|].
    exists EmptyString, title, EmptyString.
    by rewrite app_empty_l, app_empty_r.
  - apply elem_of_partial_group in Hin
      as (Hin & _ & pre & mid & post & Htitle & Hmid & _).
    split_and!; [done..|]. by exists pre, mid, post.
Qed.

Lemma search_games_hits_contain_term_witness :
  "Doom Eternal" ∈ ["Quake"; "Doom Eternal"]
  ∧ Str.strip "eternal" ≠ EmptyString
  ∧ ∃ pre mid post,
      "Doom Eternal" = pre +:+ mid +:+ post
      ∧ Str.lower mid = Str.lower (Str.strip "eternal").
Proof.
  apply (search_games_hits_contain_term ["Quake"; "Doom Eternal"] "eternal").
  apply (bool_decide_unpack _). vm_compute. exact I.
Defined.
